(** * Portfolio tracker front end: holdings table, dashboard summary,
      authentication context and mutation hooks

    A shallow embedding of the TypeScript sources

    - components/holdings/HoldingsTable (enrichedHoldings, sortedHoldings),
    - pages/DashboardPage (summary),
    - contexts/AuthContext (AuthProvider: initializeAuth, login),
    - components/auth/ProtectedRoute,
    - api/hooks/useTransactions and api/hooks/useHoldings (mutation hooks),

    together with the properties the specification states about them.

    Numbers.  A JavaScript [number] is an IEEE 754 binary64 value.  It is
    modelled by the primitive type [float]: [+], [-], [*], [/] and the
    comparisons are the binary64 operations (round to nearest, ties to
    even), with [NaN], the two infinities, the two zeros, overflow and
    underflow.  Closed examples are evaluated; general facts are derived
    from the Standard Library's specification of the primitive operations
    ([FloatAxioms], stated over [SpecFloat]). *)

From Stdlib Require Import ZArith Lia Floats Ascii String OrderedTypeEx.
From stdpp Require Import base decidable option numbers list sorting strings gmap.

#[local] Set Warnings "-inexact-float".

Local Open Scope float_scope.

(** ** JavaScript numbers *)

Abbreviation number := float.

(** [v > 0]. *)
Definition number_pos (v : number) : bool := 0 <? v.

(** Truthiness of a number: [0], [-0] and [NaN] are falsy. *)
Definition number_truthy (x : number) : bool := negb (x =? 0) && negb (is_nan x).

(** [x || 0] for an optional numeric field: [undefined], [null] and the
    falsy numbers give [0], every other number is kept. *)
Definition or_zero (x : option number) : number :=
  match x with
  | Some q => if number_truthy q then q else 0
  | None => 0
  end.

(** The number an engine returns for a comparison of strings of the given
    sign: [-1], [0] or [1]. *)
Definition number_of_sign (z : Z) : number :=
  match z with
  | Z0 => 0
  | Zpos _ => 1
  | Zneg _ => -1
  end.

(** *** binary64 in the integers *)

(** A float with a sign: finite and not zero, or infinite. *)
Definition signed (s : bool) (x : spec_float) : Prop :=
  match x with
  | S754_finite s' _ _ | S754_infinity s' => s' = s
  | _ => False
  end.

(** Finite floats, zero included. *)
Definition SFfinite (x : spec_float) : bool :=
  match x with
  | S754_zero _ | S754_finite _ _ _ => true
  | _ => false
  end.

(** An order-preserving image of the floats in the integers: the value
    scaled by [2 ^ 1074], with the infinities beyond every finite value. *)
Definition SFord (x : spec_float) : Z :=
  match x with
  | S754_zero _ | S754_nan => 0%Z
  | S754_infinity s => cond_Zopp s (2 ^ 2100)%Z
  | S754_finite s m e => cond_Zopp s (Z.pos m * 2 ^ (e - emin))%Z
  end.

Definition number_ord (a : number) : Z := SFord (Prim2SF a).

(** The float nearest to a whole number: below [2 ^ 53] in absolute value
    it is the whole number itself. *)
Definition SF_of_Z (n : Z) : spec_float := binary_normalize prec emax n 0 false.

Definition number_of_Z (n : Z) : number := SF2Prim (SF_of_Z n).

(** The whole part of a finite number. *)
Definition number_to_Z (a : number) : Z := (number_ord a / 2 ^ 1074)%Z.

(** [a] is a whole number (and not [-0]). *)
Definition whole (a : number) : Prop := number_of_Z (number_to_Z a) = a.

Definition Zsum (l : list Z) : Z := foldr Z.add 0%Z l.

(** ** Entities (types/entities) *)

Module Security.
Record t : Type := mk {
  symbol : string;
  name : string;
  currentPrice : option number
}.
End Security.

Module Holding.
Record t : Type := mk {
  id : string;
  portfolioId : string;
  securityId : string;
  totalShares : number;
  averageCost : option number;
  security : Security.t
}.
End Holding.

(** ** HoldingsTable *)

Inductive SortField : Type :=
  | symbol | shares | price | cost | value | gain | gainPercent.

Inductive SortDirection : Type := asc | desc.

(** A row of [enrichedHoldings]: the spread [...holding] followed by the
    five computed fields. *)
Module EnrichedHolding.
Record t : Type := mk {
  holding : Holding.t;
  currentPrice : number;
  marketValue : number;
  bookValue : number;
  unrealizedGain : number;
  unrealizedGainPercent : number
}.
End EnrichedHolding.

(** The callback of [holdings.map] in [enrichedHoldings]. *)
Definition enrich (holding : Holding.t) : EnrichedHolding.t :=
  let currentPrice := or_zero (Security.currentPrice (Holding.security holding)) in
  let marketValue := Holding.totalShares holding * currentPrice in
  let bookValue := Holding.totalShares holding * or_zero (Holding.averageCost holding) in
  let unrealizedGain := marketValue - bookValue in
  let unrealizedGainPercent :=
    if 0 <? bookValue then unrealizedGain / bookValue else 0 in
  EnrichedHolding.mk holding currentPrice marketValue bookValue
    unrealizedGain unrealizedGainPercent.

Definition enrichedHoldings (holdings : list Holding.t) : list EnrichedHolding.t :=
  map enrich holdings.

(** The value of the untyped locals [aValue] and [bValue] of the comparator. *)
Inductive any : Type :=
  | Str (s : string)
  | Num (n : number).

(** [Array.prototype.sort] with a comparator.  ECMAScript requires the sort
    to be stable and reads a comparator result [v] as: [v < 0] the first
    argument goes first, [v > 0] the second goes first, otherwise ([0] or
    [NaN]) the two keep their relative order.  For a consistent comparator
    the stable sorted arrangement is unique ([Array_sort_unique] below), so
    every conforming engine returns the list computed by this stable
    insertion sort; [x] is inserted in front of a tail that followed it in
    the input, and moves past [y] only when [comparefn x y > 0].  A
    comparator that answers [NaN] for some pairs is not consistent: the
    order is then left to the engine, and the model describes an engine that
    sorts by stable insertion. *)
Section ArraySort.
Context {A : Type} (comparefn : A → A → number).

Fixpoint sort_insert (x : A) (l : list A) : list A :=
  match l with
  | [] => [x]
  | y :: l' =>
      if number_pos (comparefn x y) then y :: sort_insert x l'
      else x :: y :: l'
  end.

Definition Array_sort (l : list A) : list A := foldr sort_insert [] l.

(** [x] may stand before [y]: the comparator does not move it past [y]. *)
Definition notAfter (x y : A) : Prop := number_pos (comparefn x y) = false.

(** [x] and [y] tie: the comparator moves neither past the other. *)
Definition ties (x y : A) : bool :=
  negb (number_pos (comparefn x y)) && negb (number_pos (comparefn y x)).
End ArraySort.

Section HoldingsTable.
(** [String.prototype.localeCompare] depends on the locale of the host; it
    is a parameter of the table, given by the sign of its result. *)
Variable localeCompare : string → string → Z.

(** The [switch (sortField)] of the comparator. *)
Definition sortValue (sortField : SortField) (a : EnrichedHolding.t) : any :=
  match sortField with
  | symbol => Str (Security.symbol (Holding.security (EnrichedHolding.holding a)))
  | shares => Num (Holding.totalShares (EnrichedHolding.holding a))
  | price => Num (EnrichedHolding.currentPrice a)
  | cost => Num (or_zero (Holding.averageCost (EnrichedHolding.holding a)))
  | value => Num (EnrichedHolding.marketValue a)
  | gain => Num (EnrichedHolding.unrealizedGain a)
  | gainPercent => Num (EnrichedHolding.unrealizedGainPercent a)
  end.

(** Steps 3 and 4 of the comparator.  Both values come from the same
    field, so they are both strings or both numbers; the mixed cases do not
    arise and are given the value [NaN]. *)
Definition compareValues (sortDirection : SortDirection) (aValue bValue : any) : number :=
  match aValue, bValue with
  | Str a, Str b =>
      match sortDirection with
      | asc => number_of_sign (localeCompare a b)
      | desc => number_of_sign (localeCompare b a)
      end
  | Num a, Num b =>
      match sortDirection with
      | asc => a - b
      | desc => b - a
      end
  | _, _ => nan
  end.

Definition comparator (sortField : SortField) (sortDirection : SortDirection)
    (a b : EnrichedHolding.t) : number :=
  compareValues sortDirection (sortValue sortField a) (sortValue sortField b).

Definition sortedHoldings (enriched : list EnrichedHolding.t)
    (sortField : SortField) (sortDirection : SortDirection) : list EnrichedHolding.t :=
  Array_sort (comparator sortField sortDirection) enriched.

(** The table as a function of its three inputs. *)
Definition deriveAndSort (holdings : list Holding.t)
    (sortField : SortField) (sortDirection : SortDirection) : list EnrichedHolding.t :=
  sortedHoldings (enrichedHoldings holdings) sortField sortDirection.
End HoldingsTable.

(** A row whose key under a field can be ordered: a string, or a number
    that is not [NaN]. *)
Definition sortable (sortField : SortField) (a : EnrichedHolding.t) : Prop :=
  match sortValue sortField a with
  | Num k => is_nan k = false
  | Str _ => True
  end.

(** ** DashboardPage *)

Module PortfolioSummary.
Record t : Type := mk {
  totalValue : number;
  totalCost : number;
  totalGain : number;
  totalGainPercent : number
}.
End PortfolioSummary.

(** [summary] of DashboardPage, over the fetched holdings. *)
Definition summary (holdings : list Holding.t) : PortfolioSummary.t :=
  if decide (length holdings = 0%nat) then
    PortfolioSummary.mk 0 0 0 0
  else
    let totalValue :=
      foldl (λ sum h,
               let currentPrice := or_zero (Security.currentPrice (Holding.security h)) in
               sum + Holding.totalShares h * currentPrice) 0 holdings in
    let totalCost :=
      foldl (λ sum h,
               let avgCost := or_zero (Holding.averageCost h) in
               sum + Holding.totalShares h * avgCost) 0 holdings in
    let totalGain := totalValue - totalCost in
    let totalGainPercent :=
      if 0 <? totalCost then totalGain / totalCost else 0 in
    PortfolioSummary.mk totalValue totalCost totalGain totalGainPercent.

(** The reduction the specification calls [summarize], written from its
    words: the sums of [marketValue] and of [bookValue] across the enriched
    rows, taken in the order of the list, the gain, and the guarded ratio.
    It is compared with [summary] below. *)
Definition summarize (rows : list EnrichedHolding.t) : PortfolioSummary.t :=
  let totalValue := foldl (λ sum row, sum + EnrichedHolding.marketValue row) 0 rows in
  let totalCost := foldl (λ sum row, sum + EnrichedHolding.bookValue row) 0 rows in
  let totalGain := totalValue - totalCost in
  PortfolioSummary.mk totalValue totalCost totalGain
    (if 0 <? totalCost then totalGain / totalCost else 0).

(** A table row carries every field of its holding (the spread), so the
    reduction of DashboardPage runs unchanged on a list of rows: it reads
    [security.currentPrice], [totalShares] and [averageCost] of each. *)
Definition summary_of_rows (rows : list EnrichedHolding.t) : PortfolioSummary.t :=
  summary (map EnrichedHolding.holding rows).

(** Holdings whose market and book values are whole numbers, the absolute
    values adding up to less than [2 ^ 53]: their sums are exact. *)
Definition wholeAmounts (holdings : list Holding.t) : Prop :=
  Forall (λ h, whole (EnrichedHolding.marketValue (enrich h)) ∧
               whole (EnrichedHolding.bookValue (enrich h))) holdings ∧
  (Zsum (map (λ h, Z.abs (number_to_Z (EnrichedHolding.marketValue (enrich h)))) holdings)
     < 2 ^ 53)%Z ∧
  (Zsum (map (λ h, Z.abs (number_to_Z (EnrichedHolding.bookValue (enrich h)))) holdings)
     < 2 ^ 53)%Z.

(** The two holdings of the specification's scenario. *)
Definition AAPL : Holding.t :=
  Holding.mk "h1" "p1" "s1" 10 (Some 100)
    (Security.mk "AAPL" "Apple Inc." (Some 150)).
Definition TSLA : Holding.t :=
  Holding.mk "h2" "p1" "s2" 5 (Some 200)
    (Security.mk "TSLA" "Tesla, Inc." (Some 180)).

(** A third holding, of ten shares like AAPL. *)
Definition MSFT : Holding.t :=
  Holding.mk "h3" "p1" "s3" 10 (Some 300)
    (Security.mk "MSFT" "Microsoft Corporation" (Some 310)).

(** One share without a cost, at the given price. *)
Definition oneShare (id : string) (price : number) : Holding.t :=
  Holding.mk id "p1" id 1 None (Security.mk id id (Some price)).

(** Three holdings of one share, at 0.1, 0.2 and 0.3. *)
Definition dime : Holding.t := oneShare "D1" 0.1.
Definition twoDimes : Holding.t := oneShare "D2" 0.2.
Definition threeDimes : Holding.t := oneShare "D3" 0.3.

(** Three shares at 0.1 and one share at 0.30000000000000004: the two
    market values are the same binary64 number. *)
Definition threeAtDime : Holding.t :=
  Holding.mk "T1" "p1" "T1" 3 None (Security.mk "T1" "T1" (Some 0.1)).
Definition oneAtThreeDimes : Holding.t := oneShare "T2" 0.30000000000000004.

(** Holdings of 1e200 shares bought at 1e200 and priced at 1e200, and of one
    share bought at 1e-320 and priced at 1. *)
Definition huge : Holding.t :=
  Holding.mk "h6" "p1" "s6" 1e200 (Some 1e200) (Security.mk "HUGE" "Huge" (Some 1e200)).
Definition tiny : Holding.t :=
  Holding.mk "h7" "p1" "s7" 1 (Some 1e-320) (Security.mk "TINY" "Tiny" (Some 1)).

(** A comparison of strings by code units, one of the orders
    [localeCompare] can implement. *)
Definition codeUnitCompare (a b : string) : Z :=
  match String.compare a b with
  | Eq => 0%Z
  | Lt => (-1)%Z
  | Gt => 1%Z
  end.

(** A consistent comparator in the sense of ECMAScript, for the results of
    [localeCompare]: the sign is antisymmetric and "not after" is
    transitive. *)
Definition consistent (compare : string → string → Z) : Prop :=
  (∀ a b, Z.sgn (compare b a) = (- Z.sgn (compare a b))%Z) ∧
  (∀ a b c, (compare a b ≤ 0)%Z → (compare b c ≤ 0)%Z → (compare a c ≤ 0)%Z).

(** Two rows tie under a field when the comparator moves neither past the
    other. *)
Definition tied (localeCompare : string → string → Z) (sortField : SortField)
    (a b : EnrichedHolding.t) : Prop :=
  number_pos (comparator localeCompare sortField asc a b) = false ∧
  number_pos (comparator localeCompare sortField asc b a) = false.

(** ** AuthContext *)

Module AuthUser.
Record t : Type := mk {
  id : string;
  email : string;
  fullName : option string
}.
End AuthUser.

(** The value of the [user] state.  The annotation [AuthUser | null] of the
    source is erased when the program runs: besides an identity and [null],
    the state holds whatever [JSON.parse] returned for the stored text, be it
    a boolean, a number, a string, an array or an object without the fields
    of an identity.  Of such a value the provider reads the truthiness
    only. *)
Inductive UserValue : Type :=
  | null
  | identity (u : AuthUser.t)
  | foreign (truthy : bool).

Module LoginRequest.
Record t : Type := mk { email : string; password : string }.
End LoginRequest.

Module AuthResponse.
Record t : Type := mk { token : string; user : AuthUser.t }.
End AuthResponse.

(** A thrown value: [message] is [error?.message], [responseMessage] is
    [error.response?.data?.message]. *)
Module Error.
Record t : Type := mk {
  message : option string;
  responseMessage : option string
}.
End Error.

Inductive ToastVariant : Type := plain | destructive.

Module Toast.
Record t : Type := mk {
  variant : ToastVariant;
  title : string;
  description : string
}.
End Toast.

(** [ROUTES] of utils/constants, as far as AuthContext and ProtectedRoute
    use it. *)
Inductive Route : Type := LOGIN | DASHBOARD.

(** [STORAGE_KEYS]: the names of the two keys of the durable layout are
    not part of the sources at hand; they are parameters. *)
Module StorageKeys.
Record t : Type := mk { AUTH_TOKEN : string; USER : string }.
End StorageKeys.

(** What the provider and its callbacks read and write: the two pieces of
    React state, the browser's [localStorage], and the logs of the three
    effects (toasts shown, navigations requested, console diagnostics). *)
Record World : Type := mkWorld {
  user : UserValue;
  isLoading : bool;
  localStorage : gmap string string;
  toasts : list Toast.t;
  navigations : list Route;
  console : list Error.t
}.

(** [isAuthenticated: !!user]. *)
Definition isAuthenticated (w : World) : bool :=
  match user w with
  | null => false
  | identity _ => true
  | foreign truthy => truthy
  end.

(** Completion of a statement or call: a value, or a thrown error. *)
Inductive Completion (A : Type) : Type :=
  | Return (a : A)
  | Throw (e : Error.t).
Arguments Return {A} a.
Arguments Throw {A} e.

(** Computations over the world that may throw. *)
Definition M (A : Type) : Type := World → Completion A * World.

Definition ret {A} (a : A) : M A := λ w, (Return a, w).

Definition throw {A} (e : Error.t) : M A := λ w, (Throw e, w).

Definition bind {A B} (k : A → M B) (m : M A) : M B :=
  λ w, match m w with
       | (Return a, w') => k a w'
       | (Throw e, w') => (Throw e, w')
       end.

(** Sequencing is written [x ← m; k] and [m;; k]. *)
#[global] Instance M_ret : MRet M := @ret.
#[global] Instance M_bind : MBind M := @bind.

(** [try { body } catch (error) { handler } finally { finalizer }]: the
    handler runs when the body throws, the finalizer runs in every case, and
    the statement completes like the body or the handler unless the
    finalizer itself throws. *)
Definition try_catch_finally {A} (body : M A) (handler : Error.t → M A)
    (finalizer : M unit) : M A :=
  λ w,
    let '(c1, w1) := body w in
    let '(c2, w2) :=
      match c1 with
      | Return a => (Return a, w1)
      | Throw e => handler e w1
      end in
    match finalizer w2 with
    | (Return _, w3) => (c2, w3)
    | (Throw e, w3) => (Throw e, w3)
    end.

Definition setUser (u : UserValue) : M unit :=
  λ w, (Return (), mkWorld u (isLoading w) (localStorage w) (toasts w)
                     (navigations w) (console w)).

Definition setIsLoading (b : bool) : M unit :=
  λ w, (Return (), mkWorld (user w) b (localStorage w) (toasts w)
                     (navigations w) (console w)).

Definition localStorage_getItem (key : string) : M (option string) :=
  λ w, (Return (localStorage w !! key), w).

Definition localStorage_setItem (key value : string) : M unit :=
  λ w, (Return (), mkWorld (user w) (isLoading w) (<[key := value]> (localStorage w))
                     (toasts w) (navigations w) (console w)).

Definition localStorage_removeItem (key : string) : M unit :=
  λ w, (Return (), mkWorld (user w) (isLoading w) (delete key (localStorage w))
                     (toasts w) (navigations w) (console w)).

Definition toast (t : Toast.t) : M unit :=
  λ w, (Return (), mkWorld (user w) (isLoading w) (localStorage w)
                     (toasts w ++ [t]) (navigations w) (console w)).

Definition navigate (to : Route) : M unit :=
  λ w, (Return (), mkWorld (user w) (isLoading w) (localStorage w)
                     (toasts w) (navigations w ++ [to]) (console w)).

Definition console_error (e : Error.t) : M unit :=
  λ w, (Return (), mkWorld (user w) (isLoading w) (localStorage w)
                     (toasts w) (navigations w) (console w ++ [e])).

(** Truthiness of a [string | null]: [null] and the empty string are
    falsy. *)
Definition truthy (x : option string) : bool :=
  match x with
  | Some s => bool_decide (s ≠ EmptyString)
  | None => false
  end.

(** [x || fallback] on an optional string. *)
Definition or_else (x : option string) (fallback : string) : string :=
  match x with
  | Some s => if decide (s = EmptyString) then fallback else s
  | None => fallback
  end.

(** The error [JSON.parse] throws on a text that is not JSON. *)
Definition SyntaxError : Error.t :=
  Error.mk (Some "Unexpected token in JSON") None.

Section AuthProvider.
Variable STORAGE_KEYS : StorageKeys.t.

(** [JSON.parse] on the stored text: the value it returns, or [None] for a
    thrown [SyntaxError]; and [JSON.stringify] on an identity. *)
Variable JSON_parse : string → option UserValue.
Variable JSON_stringify : AuthUser.t → string.

(** Modelled from the spec: [getAuthToken] of api/client, whose body is
    missing.  The durable layout has two keys in local device storage, one
    of them holding the opaque credential string; restoring loads the saved
    credential from there. *)
Definition getAuthToken : M (option string) :=
  localStorage_getItem (StorageKeys.AUTH_TOKEN STORAGE_KEYS).

(** Modelled from the spec: [setAuthToken] of api/client, whose body is
    missing.  It stores the credential under its key. *)
Definition setAuthToken (token : string) : M unit :=
  localStorage_setItem (StorageKeys.AUTH_TOKEN STORAGE_KEYS) token.

(** Modelled from the spec: [clearAuthToken] of api/client, whose body is
    missing.  It clears the stored credential. *)
Definition clearAuthToken : M unit :=
  localStorage_removeItem (StorageKeys.AUTH_TOKEN STORAGE_KEYS).

(** The state of the provider when it mounts: the initial values of the
    two [useState] calls, over the storage the browser holds. *)
Definition AuthProvider_mount (storage : gmap string string) : World :=
  mkWorld null false storage [] [] [].

(** [initializeAuth], the body of the mount effect (the specification's
    [restore()]). *)
Definition initializeAuth : M unit :=
  try_catch_finally
    (token ← getAuthToken;
     savedUser ← localStorage_getItem (StorageKeys.USER STORAGE_KEYS);
     if truthy token && truthy savedUser then
       parsedUser ← (match JSON_parse (default EmptyString savedUser) with
                      | Some v => ret v
                      | None => throw SyntaxError
                      end);
       setUser parsedUser
     else ret ())
    (λ error,
       console_error error;;
       clearAuthToken;;
       localStorage_removeItem (StorageKeys.USER STORAGE_KEYS))
    (setIsLoading false).

(** The states the provider goes through when the application starts.
    React renders the tree with the initial state and commits it, and only
    then runs the mount effect; the state the effect leaves is rendered
    next. *)
Definition AuthProvider_lifecycle (storage : gmap string string) : list World :=
  let w := AuthProvider_mount storage in [w; (initializeAuth w).2].

(** [login]; [apiLogin] is the settled outcome of the gateway call. *)
Definition login (apiLogin : LoginRequest.t → Completion AuthResponse.t)
    (credentials : LoginRequest.t) : M unit :=
  try_catch_finally
    (setIsLoading true;;
     response ← (λ w, (apiLogin credentials, w)) : M AuthResponse.t;
     setAuthToken (AuthResponse.token response);;
     localStorage_setItem (StorageKeys.USER STORAGE_KEYS)
       (JSON_stringify (AuthResponse.user response));;
     setUser (identity (AuthResponse.user response));;
     toast (Toast.mk plain "Welcome back!"
              ("Logged in as , " +:+ AuthUser.email (AuthResponse.user response) +:+ "!"));;
     navigate DASHBOARD)
    (λ error,
       toast (Toast.mk destructive "Login Failed"
                (or_else (Error.message error) "Invalid email or password"));;
       throw error)
    (setIsLoading false).
End AuthProvider.

(** ** ProtectedRoute *)

Inductive View : Type :=
  | LoadingPage (message : string)
  | Navigate (to : Route)
  | children.

Definition ProtectedRoute (w : World) : View :=
  if isLoading w then LoadingPage "Checking authentication..."
  else if negb (isAuthenticated w) then Navigate LOGIN
  else children.

(** ** Query cache and mutation hooks (api/hooks) *)

(** A cached query: its data and the flag [invalidateQueries] sets. *)
Module Query.
Record t : Type := mk { data : string; isInvalidated : bool }.
End Query.

(** What a mutation hook can reach: the query cache of the [QueryClient],
    keyed by query keys, and the toasts shown. *)
Record Client : Type := mkClient {
  queryCache : gmap (list string) Query.t;
  shown : list Toast.t
}.

(** [queryClient.invalidateQueries({ queryKey })]: every cached query whose
    key starts with [queryKey] is marked invalidated.  The library then
    refetches those of them that are in use, and a refetch that succeeds
    replaces the data of its query; this happens after the callback has
    returned and is not part of the model, which describes the cache as the
    callback leaves it. *)
Definition invalidateQueries (queryKey : list string) (c : Client) : Client :=
  mkClient
    (map_imap (λ k q, Some (if bool_decide (queryKey `prefix_of` k)
                            then Query.mk (Query.data q) true else q))
       (queryCache c))
    (shown c).

Definition showToast (t : Toast.t) (c : Client) : Client :=
  mkClient (queryCache c) (shown c ++ [t]).

Module holdingKeys.
Definition all : list string := ["holdings"].
Definition lists : list string := all ++ ["list"].
Definition details : list string := all ++ ["detail"].
Definition detail (portfolioId holdingId userId : string) : list string :=
  details ++ [portfolioId; holdingId; userId].
Definition list (portfolioId userId : string) := lists ++ [portfolioId; userId].
End holdingKeys.

Module portfolioKeys.
Definition all : list string := ["portfolios"].
Definition lists : list string := all ++ ["list"].
Definition details : list string := all ++ ["detail"].
Definition detail (userId portfolioId : string) : list string :=
  details ++ [userId; portfolioId].
Definition default (userId : string) : list string := all ++ ["default"; userId].
Definition list (userId : string) := lists ++ [userId].
End portfolioKeys.

(** The options object handed to [useMutation], without [mutationFn]: the
    gateway call is represented by its settled outcome.  The transfer
    objects ([data]) only travel to the gateway and are left out of the
    variables. *)
Record MutationOptions (V : Type) : Type := mkOptions {
  onSuccess : V → Client → Client;
  onError : option (Error.t → Client → Client)
}.
Arguments mkOptions {V} _ _.
Arguments onSuccess {V} _ _ _.
Arguments onError {V} _.

(** [mutate(variables)] of the library: when the promise of [mutationFn]
    resolves, [onSuccess] runs; when it rejects, [onError] runs if the hook
    registered one. *)
Definition mutate {V} (options : MutationOptions V) (variables : V)
    (settled : Completion unit) (c : Client) : Client :=
  match settled with
  | Return _ => onSuccess options variables c
  | Throw error =>
      match onError options with
      | Some handler => handler error c
      | None => c
      end
  end.

Module Variables.
Record CreateTransaction : Type := mkCreateTransaction
  { ct_userId : string; ct_portfolioId : string }.
Record UpdateTransaction : Type := mkUpdateTransaction
  { ut_userId : string; ut_transactionId : string }.
Record DeleteTransaction : Type := mkDeleteTransaction
  { dt_userId : string; dt_transactionId : string }.
Record CreateHolding : Type := mkCreateHolding
  { ch_portfolioId : string; ch_userId : string }.
Record UpdateHolding : Type := mkUpdateHolding
  { uh_userId : string; uh_portfolioId : string; uh_holdingId : string }.
Record DeleteHolding : Type := mkDeleteHolding
  { dh_holdingId : string; dh_portfolioId : string; dh_userId : string }.
End Variables.

(** The [onError] of the three transaction hooks. *)
Definition transactionFailed (title : string) (error : Error.t) : Client → Client :=
  showToast (Toast.mk destructive title
               (or_else (Error.responseMessage error) "Something went wrong")).

Definition useCreateTransaction : MutationOptions Variables.CreateTransaction :=
  mkOptions
    (λ _ c,
       let c := invalidateQueries holdingKeys.all c in
       let c := invalidateQueries portfolioKeys.all c in
       showToast (Toast.mk plain "Transaction added"
                    "Your transaction has been recorded successfully.") c)
    (Some (transactionFailed "Failed to add transaction")).

Definition useUpdateTransaction : MutationOptions Variables.UpdateTransaction :=
  mkOptions
    (λ _ c,
       let c := invalidateQueries holdingKeys.all c in
       let c := invalidateQueries portfolioKeys.all c in
       showToast (Toast.mk plain "Transaction updated"
                    "Changes saved successfully.") c)
    (Some (transactionFailed "Failed to update transaction")).

Definition useDeleteTransaction : MutationOptions Variables.DeleteTransaction :=
  mkOptions
    (λ _ c,
       let c := invalidateQueries holdingKeys.all c in
       let c := invalidateQueries portfolioKeys.all c in
       showToast (Toast.mk plain "Transaction deleted"
                    "The transaction has been removed successfully.") c)
    (Some (transactionFailed "Failed to delete transaction")).

Definition useCreateHolding : MutationOptions Variables.CreateHolding :=
  mkOptions
    (λ v c,
       let c := invalidateQueries
                  (holdingKeys.list (Variables.ch_portfolioId v) (Variables.ch_userId v)) c in
       showToast (Toast.mk plain "Holding Created"
                    "The new holding has been created successfully.") c)
    None.

Definition useUpdateHolding : MutationOptions Variables.UpdateHolding :=
  mkOptions
    (λ v c,
       let c := invalidateQueries
                  (holdingKeys.detail (Variables.uh_portfolioId v) (Variables.uh_userId v)
                     (Variables.uh_holdingId v)) c in
       showToast (Toast.mk plain "Portfolio Updated"
                    "The portfolio has been updated successfully.") c)
    None.

Definition useDeleteHolding : MutationOptions Variables.DeleteHolding :=
  mkOptions
    (λ v c,
       let c := invalidateQueries
                  (holdingKeys.list (Variables.dh_portfolioId v) (Variables.dh_userId v)) c in
       showToast (Toast.mk plain "Holding Deleted"
                    "The holding has been deleted successfully.") c)
    None.

(** A call of one of the six mutations of a transaction or holding. *)
Inductive Mutation : Type :=
  | CreateTransaction (v : Variables.CreateTransaction)
  | UpdateTransaction (v : Variables.UpdateTransaction)
  | DeleteTransaction (v : Variables.DeleteTransaction)
  | CreateHolding (v : Variables.CreateHolding)
  | UpdateHolding (v : Variables.UpdateHolding)
  | DeleteHolding (v : Variables.DeleteHolding).

Definition runMutation (m : Mutation) : Completion unit → Client → Client :=
  match m with
  | CreateTransaction v => mutate useCreateTransaction v
  | UpdateTransaction v => mutate useUpdateTransaction v
  | DeleteTransaction v => mutate useDeleteTransaction v
  | CreateHolding v => mutate useCreateHolding v
  | UpdateHolding v => mutate useUpdateHolding v
  | DeleteHolding v => mutate useDeleteHolding v
  end.

(** The keys a mutation invalidates when it succeeds, in the order of the
    calls in its [onSuccess]. *)
Definition invalidatedKeys (m : Mutation) : list (list string) :=
  match m with
  | CreateTransaction _ | UpdateTransaction _ | DeleteTransaction _ =>
      [holdingKeys.all; portfolioKeys.all]
  | CreateHolding v =>
      [holdingKeys.list (Variables.ch_portfolioId v) (Variables.ch_userId v)]
  | UpdateHolding v =>
      [holdingKeys.detail (Variables.uh_portfolioId v) (Variables.uh_userId v)
         (Variables.uh_holdingId v)]
  | DeleteHolding v =>
      [holdingKeys.list (Variables.dh_portfolioId v) (Variables.dh_userId v)]
  end.

(** A cached query once it is invalidated. *)
Definition invalidated (q : Query.t) : Query.t := Query.mk (Query.data q) true.

(** The three mutations of a transaction, as opposed to those of a
    holding. *)
Definition isTransactionMutation (m : Mutation) : bool :=
  match m with
  | CreateTransaction _ | UpdateTransaction _ | DeleteTransaction _ => true
  | CreateHolding _ | UpdateHolding _ | DeleteHolding _ => false
  end.

(** ** Closed instances for the examples *)

Definition sample_STORAGE_KEYS : StorageKeys.t :=
  StorageKeys.mk "auth_token" "user".

Definition quote : string := String "034"%char EmptyString.

Definition quoted (s : string) : string := quote +:+ s +:+ quote.

(** [JSON.stringify] on an identity whose fields need no escaping. *)
Definition sample_JSON_stringify (u : AuthUser.t) : string :=
  "{" +:+ quoted "id" +:+ ":" +:+ quoted (AuthUser.id u) +:+
  "," +:+ quoted "email" +:+ ":" +:+ quoted (AuthUser.email u) +:+
  match AuthUser.fullName u with
  | Some n => "," +:+ quoted "fullName" +:+ ":" +:+ quoted n +:+ "}"
  | None => "}"
  end.

(** A reader for the JSON texts of the examples: the literals [null],
    [true] and [false], the empty object, and objects of string members
    without white space or escapes, as [sample_JSON_stringify] writes them.
    An object with the members [id] and [email] is an identity.  Every
    other text is rejected, as [JSON.parse] rejects a text that is not
    JSON. *)
Definition expect (c : ascii) (s : string) : option string :=
  match s with
  | String c' s' => if Ascii.eqb c c' then Some s' else None
  | EmptyString => None
  end.

Fixpoint read_until_quote (s : string) : option (string * string) :=
  match s with
  | EmptyString => None
  | String c s' =>
      if Ascii.eqb c "034" then Some (EmptyString, s')
      else '(v, rest) ← read_until_quote s'; Some (String c v, rest)
  end.

Definition read_member (s : string) : option ((string * string) * string) :=
  s ← expect "034" s;
  '(k, s) ← read_until_quote s;
  s ← expect ":" s;
  s ← expect "034" s;
  '(v, s) ← read_until_quote s;
  Some ((k, v), s).

Fixpoint read_members (fuel : nat) (s : string) : option (list (string * string)) :=
  match fuel with
  | O => None
  | S fuel =>
      '(member, rest) ← read_member s;
      match rest with
      | String "}" EmptyString => Some [member]
      | String "," rest => (member ::.) <$> read_members fuel rest
      | _ => None
      end
  end.

Definition sample_JSON_parse (s : string) : option UserValue :=
  if String.eqb s "null" then Some null
  else if String.eqb s "true" then Some (foreign true)
  else if String.eqb s "false" then Some (foreign false)
  else if String.eqb s "{}" then Some (foreign true)
  else
    s' ← expect "{" s;
    members ← read_members (String.length s) s';
    let object : gmap string string := list_to_map members in
    Some (match object !! "id", object !! "email" with
          | Some id, Some email => identity (AuthUser.mk id email (object !! "fullName"))
          | _, _ => foreign true
          end).

Definition alice : AuthUser.t :=
  AuthUser.mk "u1" "alice@example.com" (Some "Alice").

(** The stored session of the specification's corrupted-identity case. *)
Definition corrupted_storage : gmap string string :=
  {[ "auth_token" := "tok123"; "user" := "{not json" ]}.



(** A valid stored session. *)
Definition valid_storage : gmap string string :=
  {[ "auth_token" := "tok123"; "user" := sample_JSON_stringify alice ]}.


(** * The rest of the cited files *)

(** ** AuthContext: register and logout *)

Module RegisterRequest.
Record t : Type := mk {
  email : string;
  password : string;
  fullName : option string
}.
End RegisterRequest.

(** [logout] of api/endpoints/auth: a promise that is already resolved;
    no request is sent. *)
Definition apiLogout : M unit := ret ().

Section AuthProviderActions.
Variable STORAGE_KEYS : StorageKeys.t.
Variable JSON_stringify : AuthUser.t → string.

(** [register]; [apiRegister] is the settled outcome of the gateway call. *)
Definition register (apiRegister : RegisterRequest.t → Completion AuthResponse.t)
    (data : RegisterRequest.t) : M unit :=
  try_catch_finally
    (setIsLoading true;;
     response ← (λ w, (apiRegister data, w)) : M AuthResponse.t;
     setAuthToken STORAGE_KEYS (AuthResponse.token response);;
     localStorage_setItem (StorageKeys.USER STORAGE_KEYS)
       (JSON_stringify (AuthResponse.user response));;
     setUser (identity (AuthResponse.user response));;
     toast (Toast.mk plain "Account Created!"
              ("Welcome to the Portfolio tracker , " +:+
               AuthUser.email (AuthResponse.user response) +:+ "!"));;
     navigate DASHBOARD)
    (λ error,
       toast (Toast.mk destructive "Registration Failed"
                (or_else (Error.message error) "Failed to create account"));;
       throw error)
    (setIsLoading false).

(** [logout]: the promise of [apiLogout] is not awaited. *)
Definition logout : M unit :=
  apiLogout;;
  clearAuthToken STORAGE_KEYS;;
  localStorage_removeItem (StorageKeys.USER STORAGE_KEYS);;
  setUser null;;
  toast (Toast.mk plain "Logged Out" "You have been logged out successfully.");;
  navigate LOGIN.
End AuthProviderActions.

(** The session as the browser keeps it: a user in memory comes with both
    entries in the storage. *)
Definition sessionStored (STORAGE_KEYS : StorageKeys.t) (w : World) : Prop :=
  isAuthenticated w = true →
  is_Some (localStorage w !! StorageKeys.AUTH_TOKEN STORAGE_KEYS) ∧
  is_Some (localStorage w !! StorageKeys.USER STORAGE_KEYS).

(** ** Computations over the state of a component *)

Definition Eff (S A : Type) : Type := S → Completion A * S.

Definition eff_ret {S A} (a : A) : Eff S A := λ s, (Return a, s).

Definition eff_bind {S A B} (k : A → Eff S B) (m : Eff S A) : Eff S B :=
  λ s, match m s with
       | (Return a, s') => k a s'
       | (Throw e, s') => (Throw e, s')
       end.

#[global] Instance Eff_ret {S} : MRet (Eff S) := @eff_ret S.
#[global] Instance Eff_bind {S} : MBind (Eff S) := @eff_bind S.

Definition eff_try_catch_finally {S A} (body : Eff S A) (handler : Error.t → Eff S A)
    (finalizer : Eff S unit) : Eff S A :=
  λ s,
    let '(c1, s1) := body s in
    let '(c2, s2) :=
      match c1 with
      | Return a => (Return a, s1)
      | Throw e => handler e s1
      end in
    match finalizer s2 with
    | (Return _, s3) => (c2, s3)
    | (Throw e, s3) => (Throw e, s3)
    end.

(** [try { body } catch (error) { handler }]. *)
Definition eff_try_catch {S A} (body : Eff S A) (handler : Error.t → Eff S A) : Eff S A :=
  λ s,
    match body s with
    | (Return a, s1) => (Return a, s1)
    | (Throw e, s1) => handler e s1
    end.

(** ** LoginForm *)

(** The state of the form next to the state of the provider it uses. *)
Record LoginForm : Type := mkLoginForm {
  isSubmitting : bool;
  auth : World
}.

Definition setIsSubmitting (b : bool) : Eff LoginForm unit :=
  λ s, (Return (), mkLoginForm b (auth s)).

(** A call into the authentication context. *)
Definition useAuth {A} (m : M A) : Eff LoginForm A :=
  λ s, let '(c, w) := m (auth s) in (c, mkLoginForm (isSubmitting s) w).

(** [onSubmit] of LoginForm; [login] is the operation of the context. *)
Definition LoginForm_onSubmit (login : LoginRequest.t → M unit)
    (data : LoginRequest.t) : Eff LoginForm unit :=
  eff_try_catch_finally
    (setIsSubmitting true;;
     useAuth (login data))
    (λ error, useAuth (console_error error))
    (setIsSubmitting false).

(** ** Queries (api/hooks) *)

Module PortfolioDto.
Record t : Type := mk {
  id : string;
  name : string;
  currency : string;
  isDefault : bool
}.
End PortfolioDto.

(** The part of the options of [useQuery] that decides what is cached and
    whether the query runs. *)
Record QueryOptions : Type := mkQuery {
  queryKey : list string;
  enabled : bool
}.

(** [!!s] on a string. *)
Definition nonEmpty (s : string) : bool := bool_decide (s ≠ EmptyString).

Definition useGetUserPortfolios (userId : string) : QueryOptions :=
  mkQuery (portfolioKeys.list userId) (nonEmpty userId).

Definition useGetDefaultPortfolio (userId : string) : QueryOptions :=
  mkQuery (portfolioKeys.default userId) (nonEmpty userId).

(** The [queryFn] of [useGetDefaultPortfolio] once [getUserPortfolios] has
    answered: [portfolios.find((p) => p.isDefault) || portfolios[0] || null]. *)
Definition selectDefaultPortfolio (portfolios : list PortfolioDto.t)
    : option PortfolioDto.t :=
  match List.find PortfolioDto.isDefault portfolios with
  | Some p => Some p
  | None =>
      match head portfolios with
      | Some p => Some p
      | None => None
      end
  end.

Definition useGetPortfolioHoldings (portfolioId userId : string) : QueryOptions :=
  mkQuery (holdingKeys.list portfolioId userId)
    (nonEmpty portfolioId && nonEmpty userId).

Definition useGetHoldingById (holdingId userId portfolioId : string) : QueryOptions :=
  mkQuery (holdingKeys.detail holdingId userId portfolioId)
    (nonEmpty holdingId && nonEmpty userId && nonEmpty portfolioId).

(** ** DashboardPage: the two queries *)

(** [user?.id || ''] and [portfolio?.id || '']. *)
Definition userIdOf (user : option AuthUser.t) : string :=
  or_else (AuthUser.id <$> user) EmptyString.

Definition portfolioIdOf (portfolio : option PortfolioDto.t) : string :=
  or_else (PortfolioDto.id <$> portfolio) EmptyString.

(** The data of the portfolio query once it has settled on the list
    [portfolios]; a disabled query has no data. *)
Definition DashboardPage_portfolio (user : option AuthUser.t)
    (portfolios : list PortfolioDto.t) : option PortfolioDto.t :=
  if enabled (useGetDefaultPortfolio (userIdOf user))
  then selectDefaultPortfolio portfolios
  else None.

Definition DashboardPage_holdingsQuery (user : option AuthUser.t)
    (portfolios : list PortfolioDto.t) : QueryOptions :=
  useGetPortfolioHoldings
    (portfolioIdOf (DashboardPage_portfolio user portfolios)) (userIdOf user).

(** ** AddTransactionDialog *)

Inductive TransactionType : Type := Buy | Sell.

(** The validated values the form hands to [onSubmit]; the date is kept as
    its ISO text. *)
Module TransactionFormValues.
Record t : Type := mk {
  symbol : string;
  transactionType : TransactionType;
  shares : number;
  pricePerShare : number;
  fees : number;
  transactionDate : string;
  notes : option string
}.
End TransactionFormValues.

(** A holding as the gateway returns it to the dialog, which reads
    [holding.holdingId || holding.id]. *)
Module HoldingRef.
Record t : Type := mk {
  holdingId : option string;
  id : option string
}.
End HoldingRef.

Module TransactionData.
Record t : Type := mk {
  holdingId : option string;
  transactionType : TransactionType;
  shares : number;
  pricePerShare : number;
  fees : number;
  transactionDate : string;
  notes : option string
}.
End TransactionData.

(** The requests the dialog sends, in the order of the arguments of the
    calls. *)
Inductive Request : Type :=
  | GetOrCreateSecurity (symbol : string)
  | FindHoldingBySecurityId (userId portfolioId securityId : string)
  | CreateHoldingRequest (portfolioId userId securityId : string)
      (totalShares averageCost : number)
  | CreateTransactionRequest (userId portfolioId : string) (data : TransactionData.t).

(** The settled outcomes of the gateway calls.  [getOrCreateSecurity] is the
    [mutateAsync] of a hook whose callbacks are not part of the sources at
    hand; only the id of the security it resolves to is used. *)
Record Gateway : Type := mkGateway {
  getOrCreateSecurity : string → Completion string;
  findHoldingBySecurityId : string → string → string → Completion (option HoldingRef.t);
  createHolding : string → string → string → Completion HoldingRef.t;
  createTransaction : string → string → TransactionData.t → Completion unit
}.

(** The state around the dialog: whether it is open, the selected security,
    the values in the form, the query client, the requests sent so far and
    the labels written to the console (the values printed after a label are
    left out). *)
Record AddTransactionDialog : Type := mkDialog {
  open : bool;
  selectedSecurity : option string;
  form : TransactionFormValues.t;
  client : Client;
  requests : list Request;
  dialogConsole : list string
}.

Definition setOpen (b : bool) : Eff AddTransactionDialog unit :=
  λ s, (Return (), mkDialog b (selectedSecurity s) (form s) (client s)
                     (requests s) (dialogConsole s)).

Definition setSelectedSecurity (x : option string) : Eff AddTransactionDialog unit :=
  λ s, (Return (), mkDialog (open s) x (form s) (client s)
                     (requests s) (dialogConsole s)).

(** [form.reset()]: back to the default values. *)
Definition form_reset (defaultValues : TransactionFormValues.t)
    : Eff AddTransactionDialog unit :=
  λ s, (Return (), mkDialog (open s) (selectedSecurity s) defaultValues (client s)
                     (requests s) (dialogConsole s)).

(** [console.log] and [console.error]. *)
Definition console_write (label : string) : Eff AddTransactionDialog unit :=
  λ s, (Return (), mkDialog (open s) (selectedSecurity s) (form s) (client s)
                     (requests s) (dialogConsole s ++ [label])).

(** An awaited gateway call: the request is recorded and the call settles. *)
Definition await {A} (r : Request) (settled : Completion A) : Eff AddTransactionDialog A :=
  λ s, (settled, mkDialog (open s) (selectedSecurity s) (form s) (client s)
                   (requests s ++ [r]) (dialogConsole s)).

(** [createTransaction.mutateAsync(variables)]: the request, then the
    callbacks of [useCreateTransaction] on the query client, then the promise
    settles like the request. *)
Definition createTransaction_mutateAsync (gateway : Gateway)
    (userId portfolioId : string) (data : TransactionData.t)
    : Eff AddTransactionDialog unit :=
  λ s,
    let settled := createTransaction gateway userId portfolioId data in
    (settled,
     mkDialog (open s) (selectedSecurity s) (form s)
       (mutate useCreateTransaction
          (Variables.mkCreateTransaction userId portfolioId) settled (client s))
       (requests s ++ [CreateTransactionRequest userId portfolioId data])
       (dialogConsole s)).

(** [values.notes || undefined]. *)
Definition notes_or_undefined (notes : option string) : option string :=
  match notes with
  | Some s => if decide (s = EmptyString) then None else Some s
  | None => None
  end.

(** [holding.holdingId || holding.id]. *)
Definition holdingIdValue (holding : HoldingRef.t) : option string :=
  if truthy (HoldingRef.holdingId holding) then HoldingRef.holdingId holding
  else HoldingRef.id holding.

Definition transactionData (holding : HoldingRef.t) (values : TransactionFormValues.t)
    : TransactionData.t :=
  TransactionData.mk (holdingIdValue holding)
    (TransactionFormValues.transactionType values)
    (TransactionFormValues.shares values)
    (TransactionFormValues.pricePerShare values)
    (or_zero (Some (TransactionFormValues.fees values)))
    (TransactionFormValues.transactionDate values)
    (notes_or_undefined (TransactionFormValues.notes values)).

(** [onSubmit] of AddTransactionDialog. *)
Definition AddTransactionDialog_onSubmit (gateway : Gateway)
    (user : option AuthUser.t) (portfolioId : string)
    (defaultValues values : TransactionFormValues.t) : Eff AddTransactionDialog unit :=
  match user with
  | None => console_write "User not authenticated"
  | Some user =>
      eff_try_catch
        (console_write "Step 1: Getting security...";;
         security ← await (GetOrCreateSecurity (TransactionFormValues.symbol values))
                      (getOrCreateSecurity gateway (TransactionFormValues.symbol values));
         console_write "Security:";;
         console_write "Step 2: Finding holding...";;
         found ← await (FindHoldingBySecurityId (AuthUser.id user) portfolioId security)
                   (findHoldingBySecurityId gateway (AuthUser.id user) portfolioId security);
         console_write "Found holding:";;
         holding ← match found with
                    | Some holding => mret holding
                    | None =>
                        console_write "Step 3: Creating new holding...";;
                        holding ← await (CreateHoldingRequest portfolioId (AuthUser.id user)
                                           security 0 0)
                                    (createHolding gateway portfolioId (AuthUser.id user) security);
                        console_write "Created holding:";;
                        mret holding
                    end;
         console_write "Step 4: Creating transaction...";;
         console_write "Holding object:";;
         console_write "Holding ID:";;
         console_write "Raw form values:";;
         console_write "Transaction data:";;
         console_write "JSON that will be sent:";;
         createTransaction_mutateAsync gateway (AuthUser.id user) portfolioId
           (transactionData holding values);;
         setOpen false;;
         form_reset defaultValues;;
         setSelectedSecurity None)
        (λ error, console_write "Failed to create transaction:")
  end.

(** ** Closed instances for the dialog *)

(** A gateway that resolves every symbol to the security "s1", answers the
    search for a holding with [found], creates the holding "h9" and settles
    the transaction as given. *)
Definition sample_gateway (found : option HoldingRef.t)
    (transaction : Completion unit) : Gateway :=
  mkGateway (λ _, Return "s1") (λ _ _ _, Return found)
    (λ _ _ _, Return (HoldingRef.mk None (Some "h9"))) (λ _ _ _, transaction).

Definition sample_values : TransactionFormValues.t :=
  TransactionFormValues.mk "AAPL" Buy 2 150 0 "2026-01-26T00:00:00.000Z"
    (Some EmptyString).

Definition sample_defaultValues : TransactionFormValues.t :=
  TransactionFormValues.mk EmptyString Buy 0 0 0 "2026-01-26T00:00:00.000Z"
    (Some EmptyString).

Definition sample_dialog : AddTransactionDialog :=
  mkDialog true (Some "AAPL") sample_values (mkClient ∅ []) [] [].

(** * Properties *)

(** ** binary64: the specification of the operations *)

Section Binary64.
Local Open Scope Z_scope.

(** Lets [lia] and [nia] see the powers of two of a goal as unknowns. *)
Ltac forget_pow :=
  repeat match goal with
         | |- context [2 ^ ?t] => let x := fresh "pw" in set (x := 2 ^ t) in *; clearbody x
         | H : context [2 ^ ?t] |- _ => let x := fresh "pw" in set (x := 2 ^ t) in *; clearbody x
         end.

Lemma digits2_pos_bounds (m : positive) :
  2 ^ (Z.pos (digits2_pos m) - 1) ≤ Z.pos m < 2 ^ Z.pos (digits2_pos m).
Proof.
  induction m as [p IH|p IH|]; cbn [digits2_pos]; [| |cbn; lia].
  - rewrite Pos2Z.inj_succ, (Pos2Z.inj_xI p).
    replace (Z.succ (Z.pos (digits2_pos p)) - 1) with (Z.succ (Z.pos (digits2_pos p) - 1)) by lia.
    rewrite !Z.pow_succ_r by lia. forget_pow. lia.
  - rewrite Pos2Z.inj_succ, (Pos2Z.inj_xO p).
    replace (Z.succ (Z.pos (digits2_pos p)) - 1) with (Z.succ (Z.pos (digits2_pos p) - 1)) by lia.
    rewrite !Z.pow_succ_r by lia. forget_pow. lia.
Qed.

Lemma shr_m_record_of_loc (m : Z) (l : location) : shr_m (shr_record_of_loc m l) = m.
Proof. by destruct l as [|[]]. Qed.

Lemma shr_1_m (r : shr_record) : 0 ≤ shr_m r → shr_m (shr_1 r) = shr_m r / 2.
Proof.
  destruct r as [m rr s]. cbn [shr_m]. intros Hm.
  destruct m as [|[p|p|]|]; cbn [shr_1 shr_m]; [done| | |done|lia].
  - rewrite (Pos2Z.inj_xI p). apply Z.div_unique with 1; lia.
  - rewrite (Pos2Z.inj_xO p). apply Z.div_unique with 0; lia.
Qed.

Lemma iter_pos_shr_1_m (p : positive) (r : shr_record) :
  0 ≤ shr_m r → shr_m (SpecFloat.iter_pos shr_1 p r) = shr_m r / 2 ^ Z.pos p.
Proof.
  revert r. induction p as [p IH|p IH|]; intros r Hr; cbn [SpecFloat.iter_pos].
  - assert (H1 : 0 ≤ shr_m (shr_1 r)) by (rewrite shr_1_m by done; by apply Z.div_pos).
    assert (H2 : 0 ≤ shr_m (SpecFloat.iter_pos shr_1 p (shr_1 r))).
    { rewrite IH by done. apply Z.div_pos; [done|]. by apply Z.pow_pos_nonneg. }
    rewrite !IH, shr_1_m by done.
    rewrite !Z.div_div by (try apply Z.pow_pos_nonneg; lia).
    f_equal. rewrite (Pos2Z.inj_xI p), Z.pow_add_r, Z.pow_mul_r by lia.
    change (2 ^ 1) with 2. change (2 ^ 2) with 4.
    replace 4 with (2 * 2) by done. rewrite Z.pow_mul_l. lia.
  - assert (H2 : 0 ≤ shr_m (SpecFloat.iter_pos shr_1 p r)).
    { rewrite IH by done. apply Z.div_pos; [done|]. by apply Z.pow_pos_nonneg. }
    rewrite !IH by done.
    rewrite !Z.div_div by (try apply Z.pow_pos_nonneg; lia).
    f_equal. rewrite (Pos2Z.inj_xO p), Z.pow_mul_r by lia.
    change (2 ^ 2) with 4.
    replace 4 with (2 * 2) by done. rewrite Z.pow_mul_l. lia.
  - by apply shr_1_m.
Qed.

(** Shifting a positive mantissa to its canonical exponent leaves a positive
    mantissa, provided the exponent is not below [emin]. *)
Lemma shr_fexp_pos (m e : Z) (l : location) :
  0 < m → emin ≤ e →
  0 < shr_m (shr_fexp prec emax m e l).1 ∧ emin ≤ (shr_fexp prec emax m e l).2.
Proof.
  intros Hm He. destruct m as [|p|]; [lia| |lia].
  unfold shr_fexp, shr. cbn [Zdigits2].
  pose proof (digits2_pos_bounds p) as [Hlo _].
  destruct (fexp prec emax (Z.pos (digits2_pos p) + e) - e) as [|q|q] eqn:Hn;
    cbn [fst snd]; rewrite ?shr_m_record_of_loc; try done.
  unfold fexp, SpecFloat.emin, prec, emax in *.
  assert (Hq : Z.pos q = Z.pos (digits2_pos p) - 53) by lia.
  split; [|lia].
  rewrite iter_pos_shr_1_m by (rewrite shr_m_record_of_loc; lia).
  rewrite shr_m_record_of_loc. apply Z.div_str_pos. split; [by apply Z.pow_pos_nonneg|].
  etrans; [|exact Hlo]. apply Z.pow_le_mono_r; lia.
Qed.

Lemma binary_round_aux_signed (sx : bool) (m e : Z) (l : location) :
  0 < m → emin ≤ e → signed sx (binary_round_aux prec emax sx m e l).
Proof.
  intros Hm He. unfold binary_round_aux.
  pose proof (shr_fexp_pos m e l Hm He) as [H1 H2].
  destruct (shr_fexp prec emax m e l) as [r e1]. cbn [fst snd] in H1, H2.
  set (m2 := round_nearest_even (shr_m r) (loc_of_shr_record r)).
  assert (Hm2 : 0 < m2).
  { unfold m2, round_nearest_even. destruct (loc_of_shr_record r) as [|[]];
      try destruct (Z.even _); lia. }
  pose proof (shr_fexp_pos m2 e1 loc_Exact Hm2 H2) as [H3 _].
  destruct (shr_fexp prec emax m2 e1 loc_Exact) as [r2 e2]. cbn [fst] in H3.
  destruct (shr_m r2); [lia| |lia].
  by destruct (_ <=? _).
Qed.

Lemma binary_round_signed (sx : bool) (m : positive) (e : Z) :
  emin ≤ e → signed sx (binary_round prec emax sx m e).
Proof.
  intros He. unfold binary_round.
  destruct (shl_align m e _) as [mz ez] eqn:Hsh.
  apply binary_round_aux_signed; [done|].
  unfold shl_align in Hsh.
  destruct (_ - e) eqn:Hd; simplify_eq; try done.
  unfold fexp, SpecFloat.emin, prec, emax in *. lia.
Qed.

Lemma shl_align_value (m : positive) (e e' : Z) :
  e' ≤ e → Z.pos (shl_align m e e').1 = Z.pos m * 2 ^ (e - e').
Proof.
  intros He. unfold shl_align. destruct (e' - e) as [|d|d] eqn:Hd; cbn [fst].
  - replace (e - e') with 0 by lia. lia.
  - lia.
  - change (Pos.iter xO m d) with (shift_pos d m).
    rewrite shift_pos_correct, Z.pow_pos_fold. replace (e - e') with (Z.pos d) by lia. lia.
Qed.

(** What [valid_binary] says about a finite float. *)
Lemma valid_finite (s : bool) (m : positive) (e : Z) :
  valid_binary (S754_finite s m e) = true →
  emin ≤ e ≤ 971 ∧ Z.pos (digits2_pos m) ≤ 53 ∧ (emin < e → Z.pos (digits2_pos m) = 53).
Proof.
  cbn. unfold bounded, canonical_mantissa, fexp, SpecFloat.emin, prec, emax.
  rewrite andb_true_iff, Z.eqb_eq, Z.leb_le. lia.
Qed.

Lemma finite_ord_bounds (s : bool) (m : positive) (e : Z) :
  valid_binary (S754_finite s m e) = true →
  0 < Z.pos m * 2 ^ (e - emin) < 2 ^ 2100.
Proof.
  intros (He & Hd & _)%valid_finite.
  pose proof (digits2_pos_bounds m) as [_ Hhi].
  assert (H53 : Z.pos m < 2 ^ 53).
  { eapply Z.lt_le_trans; [exact Hhi|]. apply Z.pow_le_mono_r; lia. }
  unfold SpecFloat.emin, prec, emax in *.
  assert (Hp : 0 < 2 ^ (e - (3 - 1024 - 53))) by (apply Z.pow_pos_nonneg; lia).
  assert (Hle : 2 ^ (e - (3 - 1024 - 53)) ≤ 2 ^ 2045) by (apply Z.pow_le_mono_r; lia).
  split; [lia|].
  replace 2100 with (53 + 2047) by done. rewrite Z.pow_add_r by lia.
  assert (2 ^ 2045 < 2 ^ 2047) by (apply Z.pow_lt_mono_r; lia).
  nia.
Qed.

Lemma finite_compare (s1 s2 : bool) (m1 m2 : positive) (e1 e2 : Z) :
  valid_binary (S754_finite s1 m1 e1) = true →
  valid_binary (S754_finite s2 m2 e2) = true →
  match e1 ?= e2 with
  | Lt => Lt
  | Gt => Gt
  | Eq => Pos.compare_cont Eq m1 m2
  end = (Z.pos m1 * 2 ^ (e1 - emin) ?= Z.pos m2 * 2 ^ (e2 - emin)).
Proof.
  intros (He1 & Hd1 & Hn1)%valid_finite (He2 & Hd2 & Hn2)%valid_finite.
  pose proof (digits2_pos_bounds m1) as [Hlo1 Hhi1].
  pose proof (digits2_pos_bounds m2) as [Hlo2 Hhi2].
  assert (Hscale : ∀ m m' e e', emin ≤ e < e' → Z.pos m < 2 ^ 53 → 2 ^ 52 ≤ Z.pos m' →
            Z.pos m * 2 ^ (e - emin) < Z.pos m' * 2 ^ (e' - emin)).
  { intros m m' e e' He Hm Hm'.
    replace (e' - emin) with ((e - emin) + (e' - e)) by lia.
    rewrite Z.pow_add_r by lia.
    assert (0 < 2 ^ (e - emin)) by (apply Z.pow_pos_nonneg; lia).
    assert (2 ^ 1 ≤ 2 ^ (e' - e)) by (apply Z.pow_le_mono_r; lia).
    change (2 ^ 1) with 2 in *.
    change (2 ^ 53) with (2 * 2 ^ 52) in Hm. forget_pow.
    assert (Z.pos m < Z.pos m' * pw0) by nia.
    rewrite (Z.mul_comm pw pw0), Z.mul_assoc.
    apply Z.mul_lt_mono_pos_r; lia. }
  assert (H53 : ∀ m, Z.pos (digits2_pos m) ≤ 53 → Z.pos m < 2 ^ 53).
  { intros m Hd. pose proof (digits2_pos_bounds m) as [_ Hhi].
    eapply Z.lt_le_trans; [exact Hhi|]. apply Z.pow_le_mono_r; lia. }
  assert (H52 : ∀ m, Z.pos (digits2_pos m) = 53 → 2 ^ 52 ≤ Z.pos m).
  { intros m Hd. pose proof (digits2_pos_bounds m) as [Hlo _].
    by rewrite Hd in Hlo. }
  destruct (Z.compare_spec e1 e2) as [->|Hlt|Hgt].
  - change (Pos.compare_cont Eq m1 m2) with (Z.pos m1 ?= Z.pos m2).
    assert (0 < 2 ^ (e2 - emin)) by (apply Z.pow_pos_nonneg; lia).
    destruct (Z.compare_spec (Z.pos m1) (Z.pos m2)) as [->|?|?]; symmetry.
    + apply Z.compare_refl.
    + apply Z.compare_lt_iff. nia.
    + apply Z.compare_gt_iff. nia.
  - symmetry. apply Z.compare_lt_iff. apply Hscale; [lia|by apply H53|apply H52; lia].
  - symmetry. apply Z.compare_gt_iff. apply Hscale; [lia|by apply H53|apply H52; lia].
Qed.

Lemma SFcompare_ord (x y : spec_float) :
  valid_binary x = true → valid_binary y = true →
  x ≠ S754_nan → y ≠ S754_nan →
  SFcompare x y = Some (SFord x ?= SFord y).
Proof.
  intros Hx Hy Hnx Hny.
  assert (Hinf : 0 < 2 ^ 2100) by (by apply Z.pow_pos_nonneg).
  destruct x as [sx|sx| |sx mx ex], y as [sy|sy| |sy my ey]; try done;
    try pose proof (finite_ord_bounds _ _ _ Hx) as Bx;
    try pose proof (finite_ord_bounds _ _ _ Hy) as By;
    cbn [SFcompare SFord];
    lazymatch goal with
    | |- context [Pos.compare_cont] =>
        destruct sx, sy; cbn [cond_Zopp]; f_equal;
          [|symmetry; apply Z.compare_lt_iff; lia|symmetry; apply Z.compare_gt_iff; lia
           |by apply (finite_compare false false)];
        rewrite Z.compare_opp, <- (finite_compare true true my mx ey ex) by done;
        rewrite (Z.compare_antisym ey ex);
        destruct (ey ?= ex); cbn [CompOpp]; try done;
        by rewrite ZC4, CompOpp_involutive
    | _ =>
        repeat match goal with s : bool |- _ => destruct s end;
        cbn [cond_Zopp]; f_equal; symmetry; forget_pow;
        first [apply Z.compare_eq_iff; lia|apply Z.compare_lt_iff; lia
              |apply Z.compare_gt_iff; lia]
    end.
Qed.

(** The sign of a difference is the order of its operands: thanks to
    gradual underflow a difference of two different finite floats is never
    rounded to zero. *)
Lemma SFsub_pos (x y : spec_float) :
  valid_binary x = true → valid_binary y = true →
  SFltb (S754_zero false) (SFsub prec emax x y) = SFltb y x.
Proof.
  intros Hx Hy.
  destruct x as [sx|sx| |sx mx ex], y as [sy|sy| |sy my ey];
    try (by repeat match goal with s : bool |- _ => destruct s end).
  assert (Hcmp := SFcompare_ord _ _ Hy Hx).
  unfold SFltb at 2. rewrite Hcmp by done. clear Hcmp. cbn [SFord].
  apply valid_finite in Hx as (Hex & _), Hy as (Hey & _).
  cbn [SFsub].
  set (ez := Z.min ex ey).
  pose proof (shl_align_value mx ex ez ltac:(lia)) as Hax.
  pose proof (shl_align_value my ey ez ltac:(lia)) as Hay.
  set (ax := (shl_align mx ex ez).1) in *. set (ay := (shl_align my ey ez).1) in *.
  change (fst (shl_align mx ex ez)) with ax. change (fst (shl_align my ey ez)) with ay.
  assert (Hez : 0 < 2 ^ (ez - emin)) by (apply Z.pow_pos_nonneg; lia).
  assert (Hord : (cond_Zopp sx (Z.pos ax) - cond_Zopp sy (Z.pos ay)) * 2 ^ (ez - emin) =
                 cond_Zopp sx (Z.pos mx * 2 ^ (ex - emin)) -
                 cond_Zopp sy (Z.pos my * 2 ^ (ey - emin))).
  { replace (ex - emin) with ((ex - ez) + (ez - emin)) by lia.
    replace (ey - emin) with ((ey - ez) + (ez - emin)) by lia.
    rewrite !Z.pow_add_r by lia. destruct sx, sy; cbn [cond_Zopp]; lia. }
  destruct (cond_Zopp sx (Z.pos ax) - cond_Zopp sy (Z.pos ay)) as [|p|p] eqn:HS;
    cbn [binary_normalize].
  - replace (_ ?= _) with Eq; [done|]. symmetry. apply Z.compare_eq_iff. lia.
  - replace (_ ?= _) with Lt by (symmetry; apply Z.compare_lt_iff; lia).
    pose proof (binary_round_signed false p ez ltac:(lia)) as Hr.
    by destruct (binary_round prec emax false p ez); cbn in *; subst.
  - replace (_ ?= _) with Gt by (symmetry; apply Z.compare_gt_iff; lia).
    pose proof (binary_round_signed true p ez ltac:(lia)) as Hr.
    by destruct (binary_round prec emax true p ez); cbn in *; subst.
Qed.

Lemma SFcompare_refl (x : spec_float) : x ≠ S754_nan → SFcompare x x = Some Eq.
Proof.
  destruct x as [s|s| |s m e]; [done|by destruct s|done|]. intros _. cbn.
  rewrite Z.compare_refl, Pcompare_refl. by destruct s.
Qed.

(** Rounding never invents a [NaN]. *)
Lemma shr_fexp_nonneg (m e : Z) (l : location) :
  0 ≤ m → 0 ≤ shr_m (shr_fexp prec emax m e l).1.
Proof.
  intros Hm. unfold shr_fexp, shr.
  destruct (fexp prec emax (Zdigits2 m + e) - e) as [|q|q]; cbn [fst];
    rewrite ?shr_m_record_of_loc; try done.
  rewrite iter_pos_shr_1_m by (by rewrite shr_m_record_of_loc).
  rewrite shr_m_record_of_loc. apply Z.div_pos; [done|]. by apply Z.pow_pos_nonneg.
Qed.

Lemma binary_round_aux_not_nan (sx : bool) (m e : Z) (l : location) :
  0 ≤ m → binary_round_aux prec emax sx m e l ≠ S754_nan.
Proof.
  intros Hm. unfold binary_round_aux.
  pose proof (shr_fexp_nonneg m e l Hm) as H1.
  destruct (shr_fexp prec emax m e l) as [r e1]. cbn [fst] in H1.
  set (m2 := round_nearest_even (shr_m r) (loc_of_shr_record r)).
  assert (Hm2 : 0 ≤ m2).
  { unfold m2, round_nearest_even. destruct (loc_of_shr_record r) as [|[]];
      try destruct (Z.even _); lia. }
  pose proof (shr_fexp_nonneg m2 e1 loc_Exact Hm2) as H3.
  destruct (shr_fexp prec emax m2 e1 loc_Exact) as [r2 e2]. cbn [fst] in H3.
  destruct (shr_m r2); [done| |lia].
  by destruct (_ <=? _).
Qed.

Lemma binary_normalize_not_nan (m e : Z) (szero : bool) :
  binary_normalize prec emax m e szero ≠ S754_nan.
Proof.
  destruct m as [|p|p]; cbn [binary_normalize]; [done| |];
    unfold binary_round; destruct (shl_align _ _ _); by apply binary_round_aux_not_nan.
Qed.

Lemma SFsub_not_nan (x y : spec_float) :
  x ≠ S754_nan → SFfinite y = true → SFsub prec emax x y ≠ S754_nan.
Proof.
  intros Hx Hy.
  destruct x as [sx|sx| |sx mx ex], y as [sy|sy| |sy my ey]; try done;
    try (by repeat match goal with s : bool |- _ => destruct s end).
  apply binary_normalize_not_nan.
Qed.

Lemma SFdiv_not_nan (x : spec_float) (sy : bool) (my : positive) (ey : Z) :
  x ≠ S754_nan → SFdiv prec emax x (S754_finite sy my ey) ≠ S754_nan.
Proof.
  intros Hx. destruct x as [sx|sx| |sx mx ex]; try done. cbn [SFdiv].
  unfold SFdiv_core_binary.
  set (s := ex - ey - _).
  set (m' := match s with Z.pos _ => Z.shiftl (Z.pos mx) s | 0 => Z.pos mx | _ => 0 end).
  assert (Hm' : 0 ≤ m').
  { unfold m'. destruct s as [|q|q]; try done. by apply Z.shiftl_nonneg. }
  pose proof (Z_div_mod m' (Z.pos my) ltac:(done)) as Hdiv.
  destruct (Z.div_eucl m' (Z.pos my)) as [q r]. destruct Hdiv as [Hq Hr].
  apply binary_round_aux_not_nan. nia.
Qed.

(** A floating-point number divided by itself, or by its opposite, is
    exactly one, or minus one. *)
Lemma SFdiv_self (s s' : bool) (m : positive) (e : Z) :
  SFdiv prec emax (S754_finite s m e) (S754_finite s' m e) =
  S754_finite (xorb s s') 4503599627370496 (-52).
Proof.
  cbn [SFdiv]. unfold SFdiv_core_binary.
  replace (Zdigits2 (Z.pos m) + e - (Zdigits2 (Z.pos m) + e)) with 0 by lia.
  replace (e - e) with 0 by lia.
  change (Z.min (fexp prec emax 0) 0) with (-53). change (0 - -53) with 53. cbv iota.
  rewrite Z.shiftl_mul_pow2 by done.
  assert (Hdiv : Z.div_eucl (Z.pos m * 2 ^ 53) (Z.pos m) = (2 ^ 53, 0)).
  { pose proof (Z.div_mul (2 ^ 53) (Z.pos m) ltac:(done)) as Hq.
    pose proof (Z.mod_mul (2 ^ 53) (Z.pos m) ltac:(done)) as Hr.
    rewrite (Z.mul_comm (2 ^ 53)) in Hq, Hr. unfold Z.div, Z.modulo in Hq, Hr.
    destruct (Z.div_eucl (Z.pos m * 2 ^ 53) (Z.pos m)). by subst. }
  rewrite Hdiv.
  assert (Hloc : new_location (Z.pos m) 0 = loc_Exact).
  { unfold new_location, new_location_even, new_location_odd. by destruct (Z.even _). }
  rewrite Hloc. by destruct (xorb s s').
Qed.

Lemma SFadd_comm (x y : spec_float) : SFadd prec emax x y = SFadd prec emax y x.
Proof.
  destruct x as [sx|sx| |sx mx ex], y as [sy|sy| |sy my ey]; try done;
    try (by repeat match goal with s : bool |- _ => destruct s end).
  cbn [SFadd]. by rewrite (Z.min_comm ey ex), Z.add_comm.
Qed.

(** *** Rounding is exact on the floats *)

Lemma digits_unique (n d d' : Z) :
  2 ^ (d - 1) ≤ n < 2 ^ d → 2 ^ (d' - 1) ≤ n < 2 ^ d' → d = d'.
Proof.
  intros [H1 H2] [H3 H4].
  destruct (Z.lt_trichotomy d d') as [Hlt|[->|Hgt]]; [|done|].
  - assert (2 ^ d ≤ 2 ^ (d' - 1)); [|lia].
    destruct (Z.le_gt_cases 0 d); [apply Z.pow_le_mono_r; lia|].
    rewrite (Z.pow_neg_r 2 d) in * by lia. lia.
  - assert (2 ^ d' ≤ 2 ^ (d - 1)); [|lia].
    destruct (Z.le_gt_cases 0 d'); [apply Z.pow_le_mono_r; lia|].
    rewrite (Z.pow_neg_r 2 d') in * by lia. lia.
Qed.

Lemma scaled_bounds (m : positive) (k : Z) :
  0 ≤ k →
  2 ^ (Z.pos (digits2_pos m) + k - 1) ≤ Z.pos m * 2 ^ k < 2 ^ (Z.pos (digits2_pos m) + k).
Proof.
  intros Hk. pose proof (digits2_pos_bounds m) as [Hlo Hhi].
  replace (Z.pos (digits2_pos m) + k - 1) with ((Z.pos (digits2_pos m) - 1) + k) by lia.
  rewrite !Z.pow_add_r by lia.
  assert (0 < 2 ^ k) by (by apply Z.pow_pos_nonneg).
  forget_pow. nia.
Qed.

Lemma digits2_pos_shift (m : positive) (q : positive) :
  Z.pos (digits2_pos (shift_pos q m)) = Z.pos (digits2_pos m) + Z.pos q.
Proof.
  symmetry. apply (digits_unique (Z.pos (shift_pos q m))).
  - rewrite shift_pos_correct, Z.pow_pos_fold, Z.mul_comm. by apply scaled_bounds.
  - apply digits2_pos_bounds.
Qed.

Lemma shr_1_exact (M : Z) :
  0 < M → shr_1 (Build_shr_record (2 * M) false false) = Build_shr_record M false false.
Proof. by destruct M. Qed.

Lemma iter_pos_shr_1_exact (p : positive) (M : Z) :
  0 < M →
  SpecFloat.iter_pos shr_1 p (Build_shr_record (M * 2 ^ Z.pos p) false false) =
  Build_shr_record M false false.
Proof.
  revert M. induction p as [p IH|p IH|]; intros M HM; cbn [SpecFloat.iter_pos].
  - replace (M * 2 ^ Z.pos p~1) with (2 * (M * 2 ^ Z.pos p * 2 ^ Z.pos p)).
    + assert (0 < 2 ^ Z.pos p) by (by apply Z.pow_pos_nonneg).
      rewrite shr_1_exact by nia. rewrite IH by nia. by apply IH.
    + rewrite (Pos2Z.inj_xI p), Z.pow_add_r, Z.pow_mul_r by lia.
      change (2 ^ 2) with (2 * 2). rewrite Z.pow_mul_l. change (2 ^ 1) with 2. lia.
  - replace (M * 2 ^ Z.pos p~0) with (M * 2 ^ Z.pos p * 2 ^ Z.pos p).
    + assert (0 < 2 ^ Z.pos p) by (by apply Z.pow_pos_nonneg).
      rewrite IH by nia. by apply IH.
    + rewrite (Pos2Z.inj_xO p), Z.pow_mul_r by lia.
      change (2 ^ 2) with (2 * 2). rewrite Z.pow_mul_l. lia.
  - rewrite Z.mul_comm. by apply shr_1_exact.
Qed.

Lemma bounded_canonical (M : positive) (E : Z) :
  bounded prec emax M E = true →
  fexp prec emax (Z.pos (digits2_pos M) + E) = E ∧ (E <=? emax - prec) = true.
Proof.
  unfold bounded, canonical_mantissa. rewrite andb_true_iff, Z.eqb_eq. done.
Qed.

(** A mantissa that carries [k] more binary zeros than the canonical one is
    rounded to the canonical one. *)
Lemma binary_round_aux_exact (s : bool) (M mz : positive) (E k : Z) :
  bounded prec emax M E = true → 0 ≤ k → Z.pos mz = Z.pos M * 2 ^ k →
  binary_round_aux prec emax s (Z.pos mz) (E - k) loc_Exact = S754_finite s M E.
Proof.
  intros [Hcan Hmax]%bounded_canonical Hk Hmz.
  assert (Htail :
    (let '(mrs'', e'') := shr_fexp prec emax (Z.pos M) E loc_Exact in
     match shr_m mrs'' with
     | 0 => S754_zero s
     | Z.pos m => if e'' <=? emax - prec then S754_finite s m e'' else S754_infinity s
     | Z.neg _ => S754_nan
     end) = S754_finite s M E).
  { unfold shr_fexp, shr. cbn [Zdigits2]. rewrite Hcan, Z.sub_diag.
    cbn [shr_record_of_loc shr_m]. by rewrite Hmax. }
  unfold binary_round_aux.
  destruct k as [|q|q]; [| |lia].
  - rewrite Z.mul_1_r in Hmz. injection Hmz as ->. rewrite Z.sub_0_r.
    unfold shr_fexp at 1, shr. cbn [Zdigits2]. rewrite Hcan, Z.sub_diag.
    cbn [shr_record_of_loc shr_m loc_of_shr_record round_nearest_even]. exact Htail.
  - assert (mz = shift_pos q M) as ->.
    { apply Pos2Z.inj. rewrite Hmz, shift_pos_correct, Z.pow_pos_fold. lia. }
    unfold shr_fexp at 1, shr. cbn [Zdigits2]. rewrite digits2_pos_shift.
    replace (Z.pos (digits2_pos M) + Z.pos q + (E - Z.pos q)) with
      (Z.pos (digits2_pos M) + E) by lia.
    rewrite Hcan. replace (E - (E - Z.pos q)) with (Z.pos q) by lia.
    cbn [shr_record_of_loc]. rewrite Hmz, iter_pos_shr_1_exact by done.
    cbn [shr_m loc_of_shr_record round_nearest_even].
    replace (E - Z.pos q + Z.pos q) with E by lia. exact Htail.
Qed.

Lemma binary_round_exact (s : bool) (m M : positive) (e E : Z) :
  bounded prec emax M E = true → emin ≤ e →
  Z.pos m * 2 ^ (e - emin) = Z.pos M * 2 ^ (E - emin) →
  binary_round prec emax s m e = S754_finite s M E.
Proof.
  intros Hb He Hval.
  pose proof (bounded_canonical _ _ Hb) as [Hcan _].
  assert (HE : emin ≤ E).
  { rewrite <- Hcan. unfold fexp. lia. }
  assert (Hdig : Z.pos (digits2_pos m) + e = Z.pos (digits2_pos M) + E).
  { pose proof (scaled_bounds m (e - emin) ltac:(lia)) as Bm.
    pose proof (scaled_bounds M (E - emin) ltac:(lia)) as BM.
    rewrite Hval in Bm.
    pose proof (digits_unique _ _ _ Bm BM). lia. }
  unfold binary_round. rewrite Hdig, Hcan.
  destruct (Z.le_gt_cases E e) as [Hle|Hgt].
  - pose proof (shl_align_value m e E Hle) as Hsh.
    assert (Hsnd : (shl_align m e E).2 = E).
    { unfold shl_align. destruct (E - e) eqn:Hd; cbn [snd]; lia. }
    destruct (shl_align m e E) as [mz ez]. cbn [fst snd] in Hsh, Hsnd. subst ez.
    replace E with (E - 0) at 1 by lia. apply binary_round_aux_exact; [done..|].
    rewrite Hsh, Z.mul_1_r.
    replace (e - emin) with ((e - E) + (E - emin)) in Hval by lia.
    rewrite Z.pow_add_r, Z.mul_assoc in Hval by lia.
    apply Z.mul_cancel_r in Hval; [done|].
    apply Z.neq_sym, Z.lt_neq, Z.pow_pos_nonneg; lia.
  - assert (Hsh : shl_align m e E = (m, e)).
    { unfold shl_align. destruct (E - e) eqn:Hd; try done. lia. }
    rewrite Hsh. replace e with (E - (E - e)) at 1 by lia.
    apply binary_round_aux_exact; [done|lia|].
    replace (E - emin) with ((E - e) + (e - emin)) in Hval by lia.
    rewrite Z.pow_add_r, Z.mul_assoc in Hval by lia.
    apply Z.mul_cancel_r in Hval; [done|].
    apply Z.neq_sym, Z.lt_neq, Z.pow_pos_nonneg; lia.
Qed.

(** A whole number [p < 2 ^ 53] is a float. *)
Lemma canonical_of_pos (p : positive) :
  Z.pos p < 2 ^ 53 →
  ∃ M E, bounded prec emax M E = true ∧
         Z.pos M * 2 ^ (E - emin) = Z.pos p * 2 ^ (0 - emin).
Proof.
  intros Hp. pose proof (digits2_pos_bounds p) as [Hlo Hhi].
  assert (Hd : Z.pos (digits2_pos p) ≤ 53).
  { destruct (Z.le_gt_cases (Z.pos (digits2_pos p)) 53) as [|Hgt]; [done|].
    assert (2 ^ 53 ≤ 2 ^ (Z.pos (digits2_pos p) - 1)) by (apply Z.pow_le_mono_r; lia).
    lia. }
  destruct (Z.eq_dec (Z.pos (digits2_pos p)) 53) as [Heq|Hne].
  - exists p, 0. split; [|done].
    unfold bounded, canonical_mantissa. rewrite Heq. done.
  - assert (∃ q, Z.pos q = 53 - Z.pos (digits2_pos p)) as [q Hq].
    { destruct (53 - Z.pos (digits2_pos p)) as [|q|q] eqn:E; [lia|by exists q|lia]. }
    exists (shift_pos q p), (- Z.pos q). split.
    + unfold bounded, canonical_mantissa. rewrite digits2_pos_shift.
      apply andb_true_iff. split; [apply Z.eqb_eq|apply Z.leb_le].
      * unfold fexp, SpecFloat.emin, prec, emax. lia.
      * unfold prec, emax. lia.
    + rewrite shift_pos_correct, Z.pow_pos_fold.
      replace (0 - emin) with (Z.pos q + (- Z.pos q - emin)).
      * rewrite Z.pow_add_r; [lia|lia|]. unfold SpecFloat.emin, prec, emax. lia.
      * lia.
Qed.

Lemma SF_of_Z_pos (s : bool) (p : positive) :
  Z.pos p < 2 ^ 53 →
  ∃ M E, bounded prec emax M E = true ∧
         Z.pos M * 2 ^ (E - emin) = Z.pos p * 2 ^ (0 - emin) ∧
         binary_round prec emax s p 0 = S754_finite s M E.
Proof.
  intros Hp. destruct (canonical_of_pos p Hp) as (M & E & Hb & Hval).
  exists M, E. split; [done|]. split; [done|].
  apply binary_round_exact; [done|done|by symmetry].
Qed.

Lemma SF_of_Z_valid (n : Z) : Z.abs n < 2 ^ 53 → valid_binary (SF_of_Z n) = true.
Proof.
  intros Hn. unfold SF_of_Z. destruct n as [|p|p]; cbn [binary_normalize]; [done| |].
  - destruct (SF_of_Z_pos false p Hn) as (M & E & Hb & _ & ->). done.
  - destruct (SF_of_Z_pos true p Hn) as (M & E & Hb & _ & ->). done.
Qed.

(** Adding two whole numbers is exact as long as the sum stays below
    [2 ^ 53]. *)
Lemma SFadd_of_Z (n m : Z) :
  Z.abs n < 2 ^ 53 → Z.abs m < 2 ^ 53 → Z.abs (n + m) < 2 ^ 53 →
  SFadd prec emax (SF_of_Z n) (SF_of_Z m) = SF_of_Z (n + m).
Proof.
  intros Hn Hm Hnm. unfold SF_of_Z at 1 2.
  destruct n as [|p|p]; cbn [binary_normalize].
  { destruct m as [|q|q]; cbn [binary_normalize]; [done| |].
    - destruct (SF_of_Z_pos false q Hm) as (M & E & _ & _ & HM).
      unfold SF_of_Z. cbn [Z.add binary_normalize]. by rewrite HM.
    - destruct (SF_of_Z_pos true q Hm) as (M & E & _ & _ & HM).
      unfold SF_of_Z. cbn [Z.add binary_normalize]. by rewrite HM. }
  all: destruct m as [|q|q]; cbn [binary_normalize].
  all: try (rewrite Z.add_0_r; unfold SF_of_Z; cbn [binary_normalize];
            match goal with
            | |- context [binary_round _ _ ?s ?p 0] =>
                destruct (SF_of_Z_pos s p Hn) as (M & E & _ & _ & HM); by rewrite HM
            end).
  all: match goal with
       | |- SFadd _ _ (binary_round _ _ ?s1 ?p 0) (binary_round _ _ ?s2 ?q 0) = _ =>
           destruct (SF_of_Z_pos s1 p Hn) as (M1 & E1 & Hb1 & Hv1 & ->);
           destruct (SF_of_Z_pos s2 q Hm) as (M2 & E2 & Hb2 & Hv2 & ->)
       end.
  all: cbn [SFadd]; set (ez := Z.min E1 E2).
  all: pose proof (bounded_canonical _ _ Hb1) as [Hc1 _];
       pose proof (bounded_canonical _ _ Hb2) as [Hc2 _];
       assert (HE1 : emin ≤ E1) by (rewrite <- Hc1; unfold fexp; lia);
       assert (HE2 : emin ≤ E2) by (rewrite <- Hc2; unfold fexp; lia).
  all: rewrite (shl_align_value M1 E1 ez), (shl_align_value M2 E2 ez) by lia.
  all: assert (Hez : 0 < 2 ^ (ez - emin)) by (apply Z.pow_pos_nonneg; lia).
  all: replace (E1 - emin) with ((E1 - ez) + (ez - emin)) in Hv1 by lia;
       replace (E2 - emin) with ((E2 - ez) + (ez - emin)) in Hv2 by lia;
       rewrite Z.pow_add_r, Z.mul_assoc in Hv1, Hv2 by lia.
  all: cbn [cond_Zopp].
  all: match goal with
       | |- binary_normalize _ _ ?S _ _ = SF_of_Z ?N =>
           assert (HS : S * 2 ^ (ez - emin) = N * 2 ^ (0 - emin)) by
             (rewrite ?Z.mul_add_distr_r, ?Z.mul_opp_l, Hv1, Hv2; lia);
           destruct N as [|r|r] eqn:HN;
           [assert (S = 0) as -> by nia; done
           |destruct S as [|t|t] eqn:HSe; [nia| |nia]
           |destruct S as [|t|t] eqn:HSe; [nia|nia|]]
       end.
  all: unfold SF_of_Z; cbn [binary_normalize].
  all: match goal with
       | |- binary_round _ _ ?s ?t _ = binary_round _ _ ?s ?r 0 =>
           destruct (SF_of_Z_pos s r ltac:(lia)) as (M & E & Hb & Hv & ->);
           apply binary_round_exact; [done|lia|]
       end.
  all: rewrite Hv; lia.
Qed.
End Binary64.

(** ** JavaScript numbers: the primitive binary64 floats *)

Lemma Prim2SF_zero : Prim2SF 0 = S754_zero false.
Proof. reflexivity. Qed.

Lemma is_nan_Prim2SF (a : float) :
  is_nan a = match Prim2SF a with S754_nan => true | _ => false end.
Proof.
  unfold is_nan. rewrite FloatAxioms.eqb_spec. unfold SFeqb.
  destruct (Prim2SF a) as [s|s| |s m e]; [done|by destruct s|done|].
  by rewrite (SFcompare_refl (S754_finite s m e)).
Qed.

Lemma is_finite_Prim2SF (a : float) : is_finite a = SFfinite (Prim2SF a).
Proof.
  unfold is_finite, is_infinity. rewrite is_nan_Prim2SF, FloatAxioms.eqb_spec, FloatAxioms.abs_spec.
  by destruct (Prim2SF a) as [?|[]| |? ? ?].
Qed.

(** [0 < a - b] exactly when [b < a]. *)
Lemma ltb_0_sub (a b : float) : (0 <? a - b)%float = (b <? a)%float.
Proof.
  rewrite !FloatAxioms.ltb_spec, FloatAxioms.sub_spec, Prim2SF_zero.
  apply SFsub_pos; apply Prim2SF_valid.
Qed.

Lemma ltb_nan_l (a b : float) : is_nan a = true → (a <? b)%float = false.
Proof.
  rewrite is_nan_Prim2SF, FloatAxioms.ltb_spec. by destruct (Prim2SF a).
Qed.

Lemma ltb_nan_r (a b : float) : is_nan b = true → (a <? b)%float = false.
Proof.
  rewrite is_nan_Prim2SF, FloatAxioms.ltb_spec. unfold SFltb.
  by destruct (Prim2SF a), (Prim2SF b).
Qed.

Lemma SFcompare_number_ord (a b : float) :
  is_nan a = false → is_nan b = false →
  SFcompare (Prim2SF a) (Prim2SF b) = Some (number_ord a ?= number_ord b)%Z.
Proof.
  rewrite !is_nan_Prim2SF. intros Ha Hb.
  apply SFcompare_ord; try apply Prim2SF_valid; by intros E; rewrite E in *.
Qed.

Lemma ltb_ord (a b : float) :
  is_nan a = false → is_nan b = false →
  (a <? b)%float = bool_decide (number_ord a < number_ord b)%Z.
Proof.
  intros Ha Hb. rewrite FloatAxioms.ltb_spec. unfold SFltb.
  rewrite SFcompare_number_ord by done.
  destruct (Z.compare_spec (number_ord a) (number_ord b)); symmetry;
    [apply bool_decide_eq_false|apply bool_decide_eq_true|apply bool_decide_eq_false]; lia.
Qed.

Lemma leb_ord (a b : float) :
  is_nan a = false → is_nan b = false →
  (a <=? b)%float = bool_decide (number_ord a ≤ number_ord b)%Z.
Proof.
  intros Ha Hb. rewrite FloatAxioms.leb_spec. unfold SFleb.
  rewrite SFcompare_number_ord by done.
  destruct (Z.compare_spec (number_ord a) (number_ord b)); symmetry;
    [apply bool_decide_eq_true|apply bool_decide_eq_true|apply bool_decide_eq_false]; lia.
Qed.

Lemma ltb_asym (a b : float) : (a <? b)%float = true → (b <? a)%float = false.
Proof.
  intros Hab.
  destruct (is_nan a) eqn:Ha; [by rewrite ltb_nan_l in Hab|].
  destruct (is_nan b) eqn:Hb; [by rewrite ltb_nan_r in Hab|].
  rewrite ltb_ord in * by done.
  apply bool_decide_eq_true in Hab. apply bool_decide_eq_false. lia.
Qed.

(** "Not greater" is transitive through a number that is not [NaN]. *)
Lemma ltb_false_trans (a b c : float) :
  is_nan b = false →
  (b <? a)%float = false → (c <? b)%float = false → (c <? a)%float = false.
Proof.
  intros Hb Hab Hbc.
  destruct (is_nan a) eqn:Ha; [by apply ltb_nan_r|].
  destruct (is_nan c) eqn:Hc; [by apply ltb_nan_l|].
  rewrite ltb_ord in * by done.
  apply bool_decide_eq_false in Hab, Hbc. apply bool_decide_eq_false. lia.
Qed.

Lemma add_comm (a b : float) : (a + b)%float = (b + a)%float.
Proof. apply Prim2SF_inj. rewrite !FloatAxioms.add_spec. apply SFadd_comm. Qed.

Lemma sub_0_r (a : float) : (a - 0)%float = a.
Proof.
  apply Prim2SF_inj. rewrite FloatAxioms.sub_spec, Prim2SF_zero.
  by destruct (Prim2SF a) as [[]|[]| |? ? ?].
Qed.

(** A finite number times zero is a zero, and adding a zero to [0] gives
    [0]. *)
Lemma add_0_mul_0 (a : float) : is_finite a = true → (0 + a * 0)%float = 0%float.
Proof.
  rewrite is_finite_Prim2SF. intros Ha.
  apply Prim2SF_inj. rewrite FloatAxioms.add_spec, FloatAxioms.mul_spec, Prim2SF_zero.
  by destruct (Prim2SF a) as [[]|?| |[] ? ?].
Qed.

Lemma mul_0_r (a : float) : is_finite a = true → (a * 0 =? 0)%float = true.
Proof.
  rewrite is_finite_Prim2SF. intros Ha.
  rewrite FloatAxioms.eqb_spec, FloatAxioms.mul_spec, Prim2SF_zero.
  by destruct (Prim2SF a) as [[]|?| |[] ? ?].
Qed.

(** *** Whole numbers *)

Lemma Prim2SF_number_of_Z (n : Z) :
  (Z.abs n < 2 ^ 53)%Z → Prim2SF (number_of_Z n) = SF_of_Z n.
Proof. intros Hn. by apply Prim2SF_SF2Prim, SF_of_Z_valid. Qed.

Lemma add_number_of_Z (n m : Z) :
  (Z.abs n < 2 ^ 53)%Z → (Z.abs m < 2 ^ 53)%Z → (Z.abs (n + m) < 2 ^ 53)%Z →
  (number_of_Z n + number_of_Z m)%float = number_of_Z (n + m).
Proof.
  intros Hn Hm Hnm. apply Prim2SF_inj.
  rewrite FloatAxioms.add_spec, !Prim2SF_number_of_Z by done.
  by apply SFadd_of_Z.
Qed.

Lemma Zsum_Permutation (l l' : list Z) : l ≡ₚ l' → Zsum l = Zsum l'.
Proof.
  unfold Zsum. induction 1 as [|x l l' _ IH|x y l|l l' l'' _ IH1 _ IH2]; cbn; lia.
Qed.

Lemma Zsum_abs_nonneg {A} (g : A → Z) (l : list A) : (0 ≤ Zsum (map (λ x, Z.abs (g x)) l))%Z.
Proof. unfold Zsum. induction l; cbn; lia. Qed.

Lemma Zsum_abs_le {A} (g : A → Z) (l : list A) :
  (Z.abs (Zsum (map g l)) ≤ Zsum (map (λ x, Z.abs (g x)) l))%Z.
Proof. unfold Zsum. induction l; cbn; lia. Qed.

(** A left-to-right sum of whole numbers is exact while the absolute values
    add up to less than [2 ^ 53]. *)
Lemma foldl_add_whole {A} (g : A → float) (l : list A) (acc : Z) :
  Forall (λ x, whole (g x)) l →
  (Z.abs acc + Zsum (map (λ x, Z.abs (number_to_Z (g x))) l) < 2 ^ 53)%Z →
  foldl (λ sum x, sum + g x)%float (number_of_Z acc) l =
  number_of_Z (acc + Zsum (map (λ x, number_to_Z (g x)) l)).
Proof.
  intros Hl. revert acc. unfold Zsum.
  induction Hl as [|x l Hx Hl IH]; intros acc Hsum; cbn in *.
  { by rewrite Z.add_0_r. }
  pose proof (Zsum_abs_nonneg (λ x, number_to_Z (g x)) l) as Hnn. unfold Zsum in Hnn.
  unfold whole in Hx. rewrite <- Hx at 1. rewrite add_number_of_Z by lia.
  rewrite IH by lia. f_equal. lia.
Qed.

(** *** Differences and ratios that are not [NaN] *)

Lemma is_nan_sub (a b : float) :
  is_nan a = false → is_finite b = true → is_nan (a - b) = false.
Proof.
  rewrite !is_nan_Prim2SF, is_finite_Prim2SF, FloatAxioms.sub_spec. intros Ha Hb.
  pose proof (SFsub_not_nan (Prim2SF a) (Prim2SF b)) as Hsub. unfold SF64sub.
  destruct (SFsub prec emax (Prim2SF a) (Prim2SF b)); try done.
  destruct Hsub; [|done..]. intros E. by rewrite E in Ha.
Qed.

(** A finite number above zero is a positive float. *)
Lemma finite_pos_Prim2SF (b : float) :
  is_finite b = true → (0 <? b) = true → ∃ m e, Prim2SF b = S754_finite false m e.
Proof.
  rewrite is_finite_Prim2SF, FloatAxioms.ltb_spec, Prim2SF_zero.
  destruct (Prim2SF b) as [?|?| |[] m e]; try done. by exists m, e.
Qed.

Lemma is_nan_div (a b : float) :
  is_nan a = false → is_finite b = true → (0 <? b) = true → is_nan (a / b) = false.
Proof.
  intros Ha Hb Hpos. destruct (finite_pos_Prim2SF b Hb Hpos) as (m & e & Eb).
  rewrite !is_nan_Prim2SF, FloatAxioms.div_spec, Eb in *. unfold SF64div.
  pose proof (SFdiv_not_nan (Prim2SF a) false m e) as Hdiv.
  destruct (SFdiv prec emax (Prim2SF a) (S754_finite false m e)); try done.
  destruct Hdiv; [|done]. intros E. by rewrite E in Ha.
Qed.

(** With a finite product [s * c] above zero, the number [s] is finite, so
    that [s * 0] is a zero; the difference [s * 0 - s * c] is the opposite
    of [s * c], and its ratio to [s * c] is exactly [-1]. *)
Lemma total_loss (s c : float) :
  is_finite (s * c) = true → (0 <? s * c) = true →
  (s * 0 =? 0) = true ∧ s * 0 - s * c = - (s * c) ∧ (s * 0 - s * c) / (s * c) = -1.
Proof.
  intros Hfin Hpos. destruct (finite_pos_Prim2SF _ Hfin Hpos) as (m & e & Ebv).
  assert (∃ s' m' e', Prim2SF s = S754_finite s' m' e') as (s' & m' & e' & Es).
  { rewrite FloatAxioms.mul_spec in Ebv. unfold SF64mul in Ebv.
    destruct (Prim2SF s) as [?|?| |s' m' e'], (Prim2SF c); try done. by exists s', m', e'. }
  assert (Ezero : Prim2SF (s * 0) = S754_zero s').
  { rewrite FloatAxioms.mul_spec, Es, Prim2SF_zero. cbn. by destruct s'. }
  assert (Egain : Prim2SF (s * 0 - s * c) = S754_finite true m e).
  { by rewrite FloatAxioms.sub_spec, Ezero, Ebv. }
  split; [|split].
  - rewrite FloatAxioms.eqb_spec, Ezero, Prim2SF_zero. done.
  - apply Prim2SF_inj. by rewrite Egain, FloatAxioms.opp_spec, Ebv.
  - apply Prim2SF_inj. rewrite FloatAxioms.div_spec, Egain, Ebv.
    unfold SF64div. by rewrite SFdiv_self.
Qed.

(** ** Array.prototype.sort *)

Section ArraySortFacts.
Context {A : Type} (comparefn : A → A → number).

Lemma sort_insert_Permutation x l : sort_insert comparefn x l ≡ₚ x :: l.
Proof.
  induction l as [|y l IH]; simpl; [done|].
  destruct (number_pos (comparefn x y)); [|done].
  rewrite IH. apply Permutation_swap.
Qed.

Lemma Array_sort_Permutation l : Array_sort comparefn l ≡ₚ l.
Proof.
  induction l as [|x l IH]; simpl; [done|].
  rewrite sort_insert_Permutation. by f_equiv.
Qed.

(** On a set [P] of elements where the comparator is consistent. *)
Context (P : A → Prop).
Hypothesis asym : ∀ x y, P x → P y →
  number_pos (comparefn x y) = true → (notAfter comparefn) y x.
Hypothesis trans : ∀ x y z, P x → P y → P z →
  (notAfter comparefn) x y → (notAfter comparefn) y z → (notAfter comparefn) x z.

Lemma sort_insert_StronglySorted x l :
  P x → Forall P l →
  StronglySorted (notAfter comparefn) l → StronglySorted (notAfter comparefn) (sort_insert comparefn x l).
Proof.
  intros Px Pl Hl. induction Hl as [|y l Hl IH Hy]; simpl.
  { repeat constructor. }
  apply Forall_cons in Pl as [Py Pl].
  destruct (number_pos (comparefn x y)) eqn:Hxy.
  - constructor; [by apply IH|].
    rewrite sort_insert_Permutation. constructor; [by apply asym|done].
  - constructor; [by constructor|].
    constructor; [done|].
    rewrite Forall_forall in Hy, Pl. apply Forall_forall. intros z Hz.
    apply (trans x y z); auto.
Qed.

Lemma Array_sort_StronglySorted l :
  Forall P l → StronglySorted (notAfter comparefn) (Array_sort comparefn l).
Proof.
  induction 1 as [|x l Px Pl IH]; simpl; [constructor|].
  apply sort_insert_StronglySorted; [done| |done].
  by rewrite Array_sort_Permutation.
Qed.

(** Stability: the elements that tie with a given one keep their input
    order. *)
Lemma ties_notAfter x y z :
  P x → P y → P z → ties comparefn z x = true → ties comparefn z y = true →
  (notAfter comparefn) x y.
Proof.
  unfold ties. rewrite !andb_true_iff, !negb_true_iff.
  intros Px Py Pz [_ Hxz] [Hzy _]. by apply (trans x z y).
Qed.

Lemma filter_ties_sort_insert z x l :
  P z → P x → Forall P l →
  List.filter (ties comparefn z) (sort_insert comparefn x l) =
  List.filter (ties comparefn z) (x :: l).
Proof.
  intros Pz Px. induction 1 as [|y l Py Pl IH]; [done|].
  cbn [sort_insert]. destruct (number_pos (comparefn x y)) eqn:Hxy; [|done].
  cbn [List.filter] in *. rewrite IH.
  destruct (ties comparefn z x) eqn:Hzx, (ties comparefn z y) eqn:Hzy; try done.
  pose proof (ties_notAfter x y z Px Py Pz Hzx Hzy) as Hle.
  unfold notAfter in Hle. congruence.
Qed.

Lemma Array_sort_stable z l :
  P z → Forall P l →
  List.filter (ties comparefn z) (Array_sort comparefn l) =
  List.filter (ties comparefn z) l.
Proof.
  intros Pz. induction 1 as [|x l Px Pl IH]; [done|].
  cbn [Array_sort foldr]. rewrite filter_ties_sort_insert; [|done..|].
  - cbn [List.filter]. fold (Array_sort comparefn l). by rewrite IH.
  - fold (Array_sort comparefn l). by rewrite Array_sort_Permutation.
Qed.

Lemma ties_refl x : P x → ties comparefn x x = true.
Proof.
  intros Px. unfold ties.
  destruct (number_pos (comparefn x x)) eqn:Hxx; [|done].
  pose proof (asym x x Px Px Hxx) as Hle. unfold notAfter in Hle. congruence.
Qed.

(** A sorted list is determined by its elements and by the order among the
    elements that tie. *)
Lemma stable_sorted_unique l1 l2 :
  Forall P l1 → l1 ≡ₚ l2 →
  StronglySorted (notAfter comparefn) l1 → StronglySorted (notAfter comparefn) l2 →
  (∀ z, P z → List.filter (ties comparefn z) l1 = List.filter (ties comparefn z) l2) →
  l1 = l2.
Proof.
  intros Pl1. revert l2. induction Pl1 as [|a l1 Pa Pl1 IH]; intros l2 HP Hs1 Hs2 Hst.
  { by apply Permutation_nil in HP. }
  destruct l2 as [|b l2]; [by apply Permutation_nil_r in HP|].
  apply StronglySorted_cons in Hs1 as [Ha Hs1].
  apply StronglySorted_cons in Hs2 as [Hb Hs2].
  rewrite Forall_forall in Ha, Hb.
  assert (Pb : P b).
  { assert (Hin : b ∈ a :: l1) by (rewrite HP; left).
    apply elem_of_cons in Hin as [->|Hin]; [done|].
    rewrite Forall_forall in Pl1. by apply Pl1. }
  assert (Hab : ties comparefn a b = true).
  { assert (Hin1 : b ∈ a :: l1) by (rewrite HP; left).
    assert (Hin2 : a ∈ b :: l2) by (rewrite <- HP; left).
    apply elem_of_cons in Hin1 as [->|Hb1]; [by apply ties_refl|].
    apply elem_of_cons in Hin2 as [->|Ha2]; [by apply ties_refl|].
    specialize (Ha b Hb1). specialize (Hb a Ha2).
    unfold ties, notAfter in *. by rewrite Ha, Hb. }
  assert (a = b) as <-.
  { specialize (Hst a Pa). cbn [List.filter] in Hst.
    rewrite (ties_refl a Pa), Hab in Hst. congruence. }
  f_equal. apply IH; [by apply Permutation_cons_inv in HP|done..|].
  intros z Pz. specialize (Hst z Pz). cbn [List.filter] in Hst.
  destruct (ties comparefn z a); congruence.
Qed.

(** On a consistent comparator every stable sort returns [Array_sort]. *)
Lemma Array_sort_unique l l' :
  Forall P l → l' ≡ₚ l →
  StronglySorted (notAfter comparefn) l' →
  (∀ z, P z → List.filter (ties comparefn z) l' = List.filter (ties comparefn z) l) →
  l' = Array_sort comparefn l.
Proof.
  intros Pl HP Hs Hst. apply stable_sorted_unique; [by rewrite HP| |done| |].
  - by rewrite Array_sort_Permutation.
  - by apply Array_sort_StronglySorted.
  - intros z Pz. rewrite Array_sort_stable by done. by apply Hst.
Qed.
End ArraySortFacts.

Lemma StronglySorted_rev {A} (R : relation A) (l : list A) :
  StronglySorted R l → StronglySorted (flip R) (reverse l).
Proof.
  induction 1 as [|x l Hl IH Hx]; [constructor|].
  rewrite reverse_cons.
  apply StronglySorted_app_2; [|done|repeat constructor].
  intros y z Hy Hz. apply list_elem_of_singleton in Hz as ->.
  rewrite Forall_forall in Hx. apply Hx. by rewrite elem_of_reverse in Hy.
Qed.


Lemma StronglySorted_weaken {A} (R R' : relation A) (l : list A) :
  (∀ x y, R x y → R' x y) → StronglySorted R l → StronglySorted R' l.
Proof.
  intros HR. induction 1 as [|x l Hl IH Hx]; constructor; [done|].
  eapply Forall_impl; [exact Hx|]. intros y. apply HR.
Qed.

(** Neighbours in the sorted list are in order, and sorting a list whose
    neighbours are in order changes nothing; for this the comparator need
    only be asymmetric. *)
Section ArraySortAgain.
Context {A : Type} (comparefn : A → A → number).
Hypothesis asym : ∀ x y,
  number_pos (comparefn x y) = true → (notAfter comparefn) y x.

Lemma sort_insert_Sorted x l :
  Sorted (notAfter comparefn) l → Sorted (notAfter comparefn) (sort_insert comparefn x l).
Proof.
  induction l as [|y l IH]; intros Hs; cbn [sort_insert].
  { by repeat constructor. }
  apply Sorted_inv in Hs as [Hl Hy].
  destruct (number_pos (comparefn x y)) eqn:Hxy.
  - constructor; [by apply IH|].
    destruct l as [|z l]; cbn [sort_insert]; [constructor; by apply asym|].
    destruct (number_pos (comparefn x z)).
    + constructor. by apply HdRel_inv in Hy.
    + constructor. by apply asym.
  - constructor; [by constructor|]. by constructor.
Qed.

Lemma Array_sort_Sorted l : Sorted (notAfter comparefn) (Array_sort comparefn l).
Proof.
  induction l as [|x l IH]; cbn; [constructor|]. by apply sort_insert_Sorted.
Qed.

Lemma Array_sort_Sorted_id l :
  Sorted (notAfter comparefn) l → Array_sort comparefn l = l.
Proof.
  induction l as [|x l IH]; intros Hs; [done|].
  apply Sorted_inv in Hs as [Hl Hx]. cbn [Array_sort foldr].
  fold (Array_sort comparefn l). rewrite IH by done.
  destruct l as [|y l]; [done|]. apply HdRel_inv in Hx.
  cbn [sort_insert]. unfold notAfter in Hx. by rewrite Hx.
Qed.

Lemma Array_sort_idemp l :
  Array_sort comparefn (Array_sort comparefn l) = Array_sort comparefn l.
Proof. apply Array_sort_Sorted_id, Array_sort_Sorted. Qed.
End ArraySortAgain.

(** ** The comparison of strings by code units is consistent *)

Lemma codeUnitCompare_sgn (a b : string) :
  Z.sgn (codeUnitCompare b a) = (- Z.sgn (codeUnitCompare a b))%Z.
Proof.
  unfold codeUnitCompare. rewrite (String.compare_antisym a b).
  by destruct (String.compare b a).
Qed.

Lemma codeUnitCompare_le (a b : string) :
  (codeUnitCompare a b ≤ 0)%Z ↔ a = b ∨ String_as_OT.lt a b.
Proof.
  unfold codeUnitCompare. destruct (String.compare a b) eqn:Hab.
  - apply String_as_OT.cmp_eq in Hab. split; [auto|lia].
  - apply String_as_OT.cmp_lt in Hab. split; [auto|lia].
  - split; [lia|]. intros [->|Hlt].
    + pose proof (proj2 (String_as_OT.cmp_eq b b) eq_refl) as Hbb.
      unfold String_as_OT.cmp in Hbb. congruence.
    + apply String_as_OT.cmp_lt in Hlt. unfold String_as_OT.cmp in Hlt. congruence.
Qed.

Lemma codeUnitCompare_consistent : consistent codeUnitCompare.
Proof.
  split; [intros a b; apply codeUnitCompare_sgn|].
  intros a b c. rewrite !codeUnitCompare_le.
  intros [->|Hab] [->|Hbc]; auto.
  right. by apply String_as_OT.lt_trans with b.
Qed.

(** ** HoldingsTable: the comparator and the two directions *)

Lemma number_pos_sign (z : Z) : number_pos (number_of_sign z) = bool_decide (0 < z)%Z.
Proof.
  destruct z; cbn [number_of_sign]; symmetry;
    [apply bool_decide_eq_false|apply bool_decide_eq_true|apply bool_decide_eq_false];
    first [reflexivity|lia].
Qed.

Section ComparatorFacts.
Variable localeCompare : string → string → Z.
Variable sortField : SortField.

Abbreviation cmp := (comparator localeCompare sortField).

(** Descending is the ascending comparator with its arguments swapped. *)
Lemma comparator_desc (a b : EnrichedHolding.t) : cmp desc a b = cmp asc b a.
Proof.
  unfold comparator, compareValues.
  by destruct (sortValue sortField a), (sortValue sortField b).
Qed.

Lemma notAfter_desc (a b : EnrichedHolding.t) :
  notAfter (cmp desc) a b ↔ notAfter (cmp asc) b a.
Proof. unfold notAfter. by rewrite comparator_desc. Qed.

Lemma sortable_dec (a : EnrichedHolding.t) : sortable sortField a ∨ ¬ sortable sortField a.
Proof.
  unfold sortable. destruct (sortValue sortField a) as [s|k]; [by left|].
  destruct (is_nan k); [by right|by left].
Qed.

(** A row whose key is [NaN] ties with every row. *)
Lemma unsortable_tied (x y : EnrichedHolding.t) :
  ¬ sortable sortField y → tied localeCompare sortField x y.
Proof.
  unfold sortable, tied, comparator. intros Hy.
  destruct sortField; cbn [sortValue compareValues] in *; try done;
    rewrite !ltb_0_sub;
    match type of Hy with
    | ¬ is_nan ?k = false =>
        assert (Hk : is_nan k = true) by (by destruct (is_nan k))
    end;
    (split; [by apply ltb_nan_l|by apply ltb_nan_r]).
Qed.

Hypothesis localeCompare_consistent : consistent localeCompare.

Lemma comparator_asym (x y : EnrichedHolding.t) :
  number_pos (cmp asc x y) = true → notAfter (cmp asc) y x.
Proof.
  unfold notAfter, comparator.
  destruct localeCompare_consistent as [Hsgn _].
  destruct sortField; cbn [sortValue compareValues];
    rewrite ?number_pos_sign, ?ltb_0_sub; try apply ltb_asym.
  rewrite bool_decide_eq_true, bool_decide_eq_false. intros Hpos.
  pose proof (Hsgn (Security.symbol (Holding.security (EnrichedHolding.holding x)))
                (Security.symbol (Holding.security (EnrichedHolding.holding y)))). lia.
Qed.

Lemma comparator_trans (x y z : EnrichedHolding.t) :
  sortable sortField y →
  notAfter (cmp asc) x y → notAfter (cmp asc) y z → notAfter (cmp asc) x z.
Proof.
  unfold sortable, notAfter, comparator.
  destruct localeCompare_consistent as [_ Htrans].
  destruct sortField; cbn [sortValue compareValues];
    rewrite ?number_pos_sign, ?ltb_0_sub;
    try (intros Hy Hxy Hyz; by eapply ltb_false_trans).
  rewrite !bool_decide_eq_false. intros _ Hxy Hyz.
  apply Z.le_ngt. eapply Htrans; apply Z.le_ngt; eassumption.
Qed.

Lemma comparator_dir_asym (d : SortDirection) (x y : EnrichedHolding.t) :
  number_pos (cmp d x y) = true → notAfter (cmp d) y x.
Proof.
  destruct d; [by apply comparator_asym|].
  intros Hpos. apply notAfter_desc. rewrite comparator_desc in Hpos.
  by apply comparator_asym.
Qed.

Lemma comparator_dir_trans (d : SortDirection) (x y z : EnrichedHolding.t) :
  sortable sortField y →
  notAfter (cmp d) x y → notAfter (cmp d) y z → notAfter (cmp d) x z.
Proof.
  intros Hy. destruct d; [by apply comparator_trans|].
  rewrite !notAfter_desc. intros Hxy Hyz. by apply comparator_trans with y.
Qed.

(** Among rows of which only equal ones tie, "not after" is transitive:
    such rows have no [NaN] key, unless they are all the same row. *)
Lemma comparator_dir_trans_ties (rows : list EnrichedHolding.t) (d : SortDirection)
    (x y z : EnrichedHolding.t) :
  (∀ a b, a ∈ rows → b ∈ rows → tied localeCompare sortField a b → a = b) →
  x ∈ rows → y ∈ rows → z ∈ rows →
  notAfter (cmp d) x y → notAfter (cmp d) y z → notAfter (cmp d) x z.
Proof.
  intros Hties Hx Hy Hz Hxy Hyz.
  destruct (sortable_dec y) as [Hs|Hn]; [by apply comparator_dir_trans with y|].
  assert (x = y) as -> by (by apply Hties; [..|apply unsortable_tied]).
  done.
Qed.

Lemma sortedHoldings_StronglySorted_ties (rows : list EnrichedHolding.t)
    (d : SortDirection) :
  (∀ a b, a ∈ rows → b ∈ rows → tied localeCompare sortField a b → a = b) →
  StronglySorted (notAfter (cmp d)) (sortedHoldings localeCompare rows sortField d).
Proof.
  intros Hties. unfold sortedHoldings.
  apply (Array_sort_StronglySorted (cmp d) (λ a, a ∈ rows)).
  - intros x y _ _. apply comparator_dir_asym.
  - intros x y z. by apply comparator_dir_trans_ties.
  - by apply Forall_forall.
Qed.

Lemma sortedHoldings_StronglySorted (rows : list EnrichedHolding.t) (d : SortDirection) :
  Forall (sortable sortField) rows →
  StronglySorted (notAfter (cmp d)) (sortedHoldings localeCompare rows sortField d).
Proof.
  intros Hrows. unfold sortedHoldings.
  apply (Array_sort_StronglySorted (cmp d) (sortable sortField)); [| |done].
  - intros x y _ _. apply comparator_dir_asym.
  - intros x y z _ Hy _. by apply comparator_dir_trans.
Qed.
End ComparatorFacts.

(** Under a consistent [localeCompare] and when only equal rows tie,
    sorting ascending and reversing is sorting descending. *)
Lemma reverse_sortedHoldings (localeCompare : string → string → Z)
    (sortField : SortField) (rows : list EnrichedHolding.t) :
  consistent localeCompare →
  (∀ a b, a ∈ rows → b ∈ rows → tied localeCompare sortField a b → a = b) →
  reverse (sortedHoldings localeCompare rows sortField asc) =
  sortedHoldings localeCompare rows sortField desc.
Proof.
  intros Hlc Hties.
  pose proof (sortedHoldings_StronglySorted_ties localeCompare sortField Hlc rows asc Hties)
    as Hup.
  pose proof (sortedHoldings_StronglySorted_ties localeCompare sortField Hlc rows desc Hties)
    as Hdown.
  unfold sortedHoldings in *.
  set (up := comparator localeCompare sortField asc) in *.
  set (down := comparator localeCompare sortField desc) in *.
  apply (StronglySorted_unique_strong (notAfter down)).
  - intros a b Ha Hb Hab Hba.
    rewrite elem_of_reverse, Array_sort_Permutation in Ha.
    rewrite Array_sort_Permutation in Hb.
    apply Hties; [done..|].
    apply notAfter_desc in Hab, Hba. by split.
  - apply StronglySorted_rev in Hup.
    eapply StronglySorted_weaken; [|exact Hup].
    intros x y Hxy. by apply notAfter_desc.
  - done.
  - by rewrite reverse_Permutation, !Array_sort_Permutation.
Qed.

Lemma deriveAndSort_Permutation (localeCompare : string → string → Z)
    (H : list Holding.t) (f : SortField) (d : SortDirection) :
  deriveAndSort localeCompare H f d ≡ₚ enrichedHoldings H.
Proof. apply Array_sort_Permutation. Qed.

Lemma holding_enrichedHoldings (H : list Holding.t) :
  map EnrichedHolding.holding (enrichedHoldings H) = H.
Proof. unfold enrichedHoldings. rewrite map_map. simpl. apply map_id. Qed.

Lemma deriveAndSort_holdings (localeCompare : string → string → Z)
    (H : list Holding.t) (f : SortField) (d : SortDirection) :
  map EnrichedHolding.holding (deriveAndSort localeCompare H f d) ≡ₚ H.
Proof.
  rewrite (deriveAndSort_Permutation localeCompare H f d).
  by rewrite holding_enrichedHoldings.
Qed.

(** Every row of the table is the enrichment of its holding. *)
Lemma deriveAndSort_enriched (localeCompare : string → string → Z)
    (H : list Holding.t) (f : SortField) (d : SortDirection) :
  Forall (λ row, row = enrich (EnrichedHolding.holding row))
    (deriveAndSort localeCompare H f d).
Proof.
  rewrite (deriveAndSort_Permutation localeCompare H f d).
  unfold enrichedHoldings. apply Forall_fmap, Forall_true. done.
Qed.

(** The ties of rows of holdings are the ties of the holdings. *)
Lemma enriched_ties (localeCompare : string → string → Z) (f : SortField)
    (H : list Holding.t) :
  (∀ h1 h2, h1 ∈ H → h2 ∈ H →
     tied localeCompare f (enrich h1) (enrich h2) → h1 = h2) →
  ∀ a b, a ∈ enrichedHoldings H → b ∈ enrichedHoldings H →
         tied localeCompare f a b → a = b.
Proof.
  intros Hties a b Ha Hb Hab. unfold enrichedHoldings in Ha, Hb.
  apply list_elem_of_fmap in Ha as (h1 & -> & Hh1).
  apply list_elem_of_fmap in Hb as (h2 & -> & Hh2).
  f_equal. by apply Hties.
Qed.

(** ** Sums over holdings *)

Lemma foldl_map_fusion {A B C} (f : C → B → C) (g : A → B) (l : list A) (c : C) :
  foldl f c (map g l) = foldl (λ c a, f c (g a)) c l.
Proof. revert c. induction l as [|a l IH]; intros c; cbn; [done|apply IH]. Qed.

Lemma summary_enrichedHoldings (H : list Holding.t) :
  summary H = summarize (enrichedHoldings H).
Proof.
  unfold summary, summarize, enrichedHoldings.
  destruct (decide (length H = 0%nat)) as [Hnil|_].
  - apply nil_length_inv in Hnil as ->. reflexivity.
  - by rewrite !foldl_map_fusion.
Qed.

(** On rows that are the enrichments of their holdings, the reduction over
    the enriched fields is the reduction of DashboardPage. *)
Lemma summarize_summary_of_rows (rows : list EnrichedHolding.t) :
  Forall (λ row, row = enrich (EnrichedHolding.holding row)) rows →
  summarize rows = summary_of_rows rows.
Proof.
  intros Hrows. unfold summary_of_rows. rewrite summary_enrichedHoldings. f_equal.
  unfold enrichedHoldings. rewrite map_map.
  induction Hrows as [|row rows Hrow _ IH]; cbn; [done|]. by rewrite <- Hrow, <- IH.
Qed.

(** Whole amounts are summed exactly. *)
Lemma summary_wholeAmounts (H : list Holding.t) :
  wholeAmounts H →
  let totalValue :=
    number_of_Z (Zsum (map (λ h, number_to_Z (EnrichedHolding.marketValue (enrich h))) H)) in
  let totalCost :=
    number_of_Z (Zsum (map (λ h, number_to_Z (EnrichedHolding.bookValue (enrich h))) H)) in
  summary H =
    PortfolioSummary.mk totalValue totalCost (totalValue - totalCost)
      (if 0 <? totalCost then (totalValue - totalCost) / totalCost else 0).
Proof.
  intros (Hwhole & Hvalue & Hcost) totalValue totalCost. subst totalValue totalCost.
  unfold summary. destruct (decide (length H = 0%nat)) as [Hnil|_].
  { apply nil_length_inv in Hnil as ->. vm_compute. reflexivity. }
  pose proof (foldl_add_whole (λ h, EnrichedHolding.marketValue (enrich h)) H 0) as Ev.
  pose proof (foldl_add_whole (λ h, EnrichedHolding.bookValue (enrich h)) H 0) as Ec.
  cbn [enrich EnrichedHolding.marketValue EnrichedHolding.bookValue] in Ev, Ec.
  change (number_of_Z 0) with 0 in Ev, Ec.
  rewrite Z.add_0_l in Ev, Ec. cbv zeta. rewrite Ev, Ec; [done| | | |].
  - eapply Forall_impl; [exact Hwhole|]. by intros h [_ ?].
  - exact Hcost.
  - eapply Forall_impl; [exact Hwhole|]. by intros h [? _].
  - exact Hvalue.
Qed.

Lemma wholeAmounts_Permutation (H H' : list Holding.t) :
  H ≡ₚ H' → wholeAmounts H → wholeAmounts H'.
Proof.
  intros HP (Hwhole & Hvalue & Hcost). split; [|split].
  - by rewrite <- HP.
  - by rewrite <- (Zsum_Permutation _ _ (Permutation_map _ HP)).
  - by rewrite <- (Zsum_Permutation _ _ (Permutation_map _ HP)).
Qed.

Lemma summary_Permutation (H H' : list Holding.t) :
  H ≡ₚ H' → wholeAmounts H → summary H = summary H'.
Proof.
  intros HP Hwhole.
  rewrite (summary_wholeAmounts H Hwhole).
  rewrite (summary_wholeAmounts H' (wholeAmounts_Permutation H H' HP Hwhole)).
  cbv zeta.
  rewrite (Zsum_Permutation _ _
    (Permutation_map (λ h, number_to_Z (EnrichedHolding.marketValue (enrich h))) HP)).
  by rewrite (Zsum_Permutation _ _
    (Permutation_map (λ h, number_to_Z (EnrichedHolding.bookValue (enrich h))) HP)).
Qed.

Lemma summary_of_rows_deriveAndSort (localeCompare : string → string → Z)
    (H : list Holding.t) (f : SortField) (d : SortDirection) :
  wholeAmounts H →
  summary_of_rows (deriveAndSort localeCompare H f d) = summary H.
Proof.
  intros Hwhole. unfold summary_of_rows. symmetry.
  apply summary_Permutation; [|done]. symmetry. apply deriveAndSort_holdings.
Qed.

(** * The claims *)

(** ** The two sort directions *)

(** C1, as amended.  For every holdings list and sort field, under a
    consistent [localeCompare]: the descending comparator is the ascending
    one with its arguments swapped, and when no two different holdings of
    the list tie under the field (the comparator, evaluated in binary64,
    moves neither past the other), the ascending table reversed is, element
    for element, the descending table. *)
Theorem deriveAndSort_asc_reverse_desc (localeCompare : string → string → Z)
    (H : list Holding.t) (f : SortField) :
  consistent localeCompare →
  (∀ h1 h2, h1 ∈ H → h2 ∈ H →
     tied localeCompare f (enrich h1) (enrich h2) → h1 = h2) →
  (∀ a b, comparator localeCompare f desc a b = comparator localeCompare f asc b a) ∧
  reverse (deriveAndSort localeCompare H f asc) = deriveAndSort localeCompare H f desc.
Proof.
  intros Hlc Hties. split; [apply comparator_desc|]. unfold deriveAndSort.
  apply reverse_sortedHoldings; [done|]. by apply enriched_ties.
Qed.

Lemma deriveAndSort_asc_reverse_desc_witness :
  (∀ a b, comparator codeUnitCompare gain desc a b = comparator codeUnitCompare gain asc b a) ∧
  reverse (deriveAndSort codeUnitCompare [TSLA; AAPL] gain asc) =
  deriveAndSort codeUnitCompare [TSLA; AAPL] gain desc.
Proof.
  apply deriveAndSort_asc_reverse_desc.
  - exact codeUnitCompare_consistent.
  - intros h1 h2 Hh1 Hh2 [T1 T2].
    apply elem_of_cons in Hh1 as [->|Hh1]; [|apply list_elem_of_singleton in Hh1 as ->];
    (apply elem_of_cons in Hh2 as [->|Hh2]; [|apply list_elem_of_singleton in Hh2 as ->]);
    try reflexivity; vm_compute in T1, T2; discriminate.
Defined.

(** C1, as stated, fails on two holdings with equal share counts: the sort
    is stable, so both directions keep AAPL in front of MSFT. *)
Lemma deriveAndSort_ties_not_reversed :
  reverse (deriveAndSort codeUnitCompare [AAPL; MSFT] shares asc) ≠
  deriveAndSort codeUnitCompare [AAPL; MSFT] shares desc.
Proof.
  intros E.
  apply (f_equal (map (λ e, Holding.id (EnrichedHolding.holding e)))) in E.
  vm_compute in E. discriminate.
Qed.

Example deriveAndSort_ties_keep_input_order :
  map (λ e, Security.symbol (Holding.security (EnrichedHolding.holding e)))
    (deriveAndSort codeUnitCompare [AAPL; MSFT] shares asc) = ["AAPL"; "MSFT"] ∧
  map (λ e, Security.symbol (Holding.security (EnrichedHolding.holding e)))
    (deriveAndSort codeUnitCompare [AAPL; MSFT] shares desc) = ["AAPL"; "MSFT"].
Proof. split; vm_compute; reflexivity. Qed.

(** Ties are ties of binary64 numbers: three shares at 0.1 and one share at
    0.30000000000000004 have the same market value, and both directions
    keep them in input order. *)
Example deriveAndSort_ties_binary64 :
  EnrichedHolding.marketValue (enrich threeAtDime) =
    EnrichedHolding.marketValue (enrich oneAtThreeDimes) ∧
  map (λ e, Holding.id (EnrichedHolding.holding e))
    (deriveAndSort codeUnitCompare [threeAtDime; oneAtThreeDimes] value asc) = ["T1"; "T2"] ∧
  map (λ e, Holding.id (EnrichedHolding.holding e))
    (deriveAndSort codeUnitCompare [threeAtDime; oneAtThreeDimes] value desc) = ["T1"; "T2"].
Proof. repeat split; vm_compute; reflexivity. Qed.

(** ** Enrichment *)

(** C2, as amended.  Every row built from a holding [h] keeps [h]; its
    price is the price of the security, or 0 when that is absent or falsy;
    market and book value are the share count times the price and times the
    average cost (0 when absent or falsy); the gain is their difference; the
    gain percentage is the gain over the book value when the book value is
    strictly positive, and exactly 0 otherwise.  [enrich] is total: a
    missing price or cost raises nothing.  The guard keeps a zero out of the
    divisor: whenever the book value is not above zero the percentage is 0,
    and without an average cost a finite share count gives a book value of
    zero and a percentage of 0.  The percentage is a number, not [NaN],
    whenever the market value is a number and the book value is finite. *)
Theorem enrich_fields (h : Holding.t) :
  let row := enrich h in
  EnrichedHolding.holding row = h ∧
  (Security.currentPrice (Holding.security h) = None → EnrichedHolding.currentPrice row = 0) ∧
  (∀ p, Security.currentPrice (Holding.security h) = Some p →
        EnrichedHolding.currentPrice row = if number_truthy p then p else 0) ∧
  EnrichedHolding.marketValue row =
    Holding.totalShares h * EnrichedHolding.currentPrice row ∧
  EnrichedHolding.bookValue row =
    Holding.totalShares h * or_zero (Holding.averageCost h) ∧
  EnrichedHolding.unrealizedGain row =
    EnrichedHolding.marketValue row - EnrichedHolding.bookValue row ∧
  EnrichedHolding.unrealizedGainPercent row =
    (if 0 <? EnrichedHolding.bookValue row
     then EnrichedHolding.unrealizedGain row / EnrichedHolding.bookValue row
     else 0) ∧
  ((0 <? EnrichedHolding.bookValue row) = false →
   EnrichedHolding.unrealizedGainPercent row = 0) ∧
  (Holding.averageCost h = None → is_finite (Holding.totalShares h) = true →
   (EnrichedHolding.bookValue row =? 0) = true ∧
   EnrichedHolding.unrealizedGainPercent row = 0) ∧
  (is_nan (EnrichedHolding.marketValue row) = false →
   is_finite (EnrichedHolding.bookValue row) = true →
   is_nan (EnrichedHolding.unrealizedGainPercent row) = false).
Proof.
  cbv zeta. cbn [enrich EnrichedHolding.holding EnrichedHolding.currentPrice
    EnrichedHolding.marketValue EnrichedHolding.bookValue EnrichedHolding.unrealizedGain
    EnrichedHolding.unrealizedGainPercent].
  split; [done|]. split; [by intros ->|]. split; [by intros p ->|].
  do 4 (split; [done|]). split; [|split].
  - by intros ->.
  - intros -> Hfin. cbn [or_zero].
    pose proof (mul_0_r _ Hfin) as Hzero. split; [done|].
    rewrite FloatAxioms.ltb_spec, Prim2SF_zero.
    rewrite FloatAxioms.eqb_spec, Prim2SF_zero in Hzero.
    by destruct (Prim2SF (Holding.totalShares h * 0)) as [?|[]| |[] ? ?].
  - intros Hvalue Hbook.
    destruct (0 <? _) eqn:Hpos; [|done].
    apply is_nan_div; [|done..]. by apply is_nan_sub.
Qed.

(** C2, as stated, fails when a product overflows: for 1e200 shares bought
    at 1e200 and priced at 1e200 both values are [Infinity], the book value
    passes the guard and the percentage is [NaN]; for one share bought at
    1e-320 and priced at 1 the percentage is [Infinity]. *)
Lemma enrich_overflow :
  (0 <? EnrichedHolding.bookValue (enrich huge)) = true ∧
  is_nan (EnrichedHolding.unrealizedGainPercent (enrich huge)) = true ∧
  (0 <? EnrichedHolding.bookValue (enrich tiny)) = true ∧
  EnrichedHolding.unrealizedGainPercent (enrich tiny) = infinity.
Proof. repeat split; vm_compute; reflexivity. Qed.

(** ** The summary *)

(** C7, as amended.  For every list [H] of holdings whose market and book
    values are whole numbers with absolute values adding up to less than
    [2 ^ 53], and every permutation [H'] of it, the summary of the table of
    [H] equals the summary of the table of [H'], whatever the sort fields
    and directions of the two tables: for the reduction of DashboardPage run
    on the rows, and for the reduction over the enriched fields. *)
Theorem summary_order_independent (localeCompare : string → string → Z)
    (H H' : list Holding.t) (f f' : SortField) (d d' : SortDirection) :
  H ≡ₚ H' → wholeAmounts H →
  summary_of_rows (deriveAndSort localeCompare H f d) =
    summary_of_rows (deriveAndSort localeCompare H' f' d') ∧
  summarize (deriveAndSort localeCompare H f d) =
    summarize (deriveAndSort localeCompare H' f' d').
Proof.
  intros HP Hwhole.
  pose proof (wholeAmounts_Permutation H H' HP Hwhole) as Hwhole'.
  rewrite !summarize_summary_of_rows by apply deriveAndSort_enriched.
  rewrite !summary_of_rows_deriveAndSort by done.
  split; by apply summary_Permutation.
Qed.

Lemma summary_order_independent_witness :
  summary_of_rows (deriveAndSort codeUnitCompare [AAPL; TSLA; MSFT] gain desc) =
    summary_of_rows (deriveAndSort codeUnitCompare [MSFT; AAPL; TSLA] symbol asc) ∧
  summarize (deriveAndSort codeUnitCompare [AAPL; TSLA; MSFT] gain desc) =
    summarize (deriveAndSort codeUnitCompare [MSFT; AAPL; TSLA] symbol asc).
Proof.
  apply summary_order_independent.
  - change ([AAPL; TSLA] ++ [MSFT] ≡ₚ [MSFT] ++ [AAPL; TSLA]).
    apply Permutation_app_comm.
  - split; [|split]; [|vm_compute; reflexivity..].
    repeat constructor; vm_compute; reflexivity.
Defined.

(** C7, as stated, fails: binary64 addition is not associative.  For one
    share each at 0.1, 0.2 and 0.3 the total value is 0.6000000000000001 in
    this order and 0.6 in the reverse order.  Sorted by shares the three
    rows tie and keep the order of the input, so the summaries of the two
    tables differ; and for one list sorted by price the two directions give
    different summaries. *)
Lemma summary_order_dependent :
  [dime; twoDimes; threeDimes] ≡ₚ [threeDimes; twoDimes; dime] ∧
  PortfolioSummary.totalValue (summary [dime; twoDimes; threeDimes]) = 0.6000000000000001 ∧
  PortfolioSummary.totalValue (summary [threeDimes; twoDimes; dime]) = 0.6 ∧
  summary_of_rows (deriveAndSort codeUnitCompare [dime; twoDimes; threeDimes] shares asc) ≠
    summary_of_rows (deriveAndSort codeUnitCompare [threeDimes; twoDimes; dime] shares asc) ∧
  summarize (deriveAndSort codeUnitCompare [dime; twoDimes; threeDimes] shares asc) ≠
    summarize (deriveAndSort codeUnitCompare [threeDimes; twoDimes; dime] shares asc) ∧
  summarize (deriveAndSort codeUnitCompare [dime; twoDimes; threeDimes] price asc) ≠
    summarize (deriveAndSort codeUnitCompare [dime; twoDimes; threeDimes] price desc).
Proof.
  split; [|split; [|split; [|split; [|split]]]].
  - change ([dime; twoDimes; threeDimes]) with (reverse [threeDimes; twoDimes; dime]).
    apply reverse_Permutation.
  - vm_compute. reflexivity.
  - vm_compute. reflexivity.
  - intros E. apply (f_equal PortfolioSummary.totalValue) in E. vm_compute in E. discriminate.
  - intros E. apply (f_equal PortfolioSummary.totalValue) in E. vm_compute in E. discriminate.
  - intros E. apply (f_equal PortfolioSummary.totalValue) in E. vm_compute in E. discriminate.
Qed.

(** C9.  The summary DashboardPage computes from the raw holdings is the
    summary obtained by enriching each holding and summing the market and
    book values of the rows. *)
Theorem summary_refines_summarize (H : list Holding.t) :
  summary H = summarize (enrichedHoldings H).
Proof. apply summary_enrichedHoldings. Qed.

(** ** The scenario of the specification *)

(** C8.  On AAPL (10 shares, cost 100, price 150) and TSLA (5 shares, cost
    200, price 180), sorted by gain descending: AAPL with gain 500 comes
    before TSLA with gain -100, and the summary is 2400, 2000, 400 and
    0.2. *)
Theorem scenario_AAPL_TSLA (localeCompare : string → string → Z) :
  map (λ e, Security.symbol (Holding.security (EnrichedHolding.holding e)))
    (deriveAndSort localeCompare [AAPL; TSLA] gain desc) = ["AAPL"; "TSLA"] ∧
  map EnrichedHolding.unrealizedGain
    (deriveAndSort localeCompare [AAPL; TSLA] gain desc) = [500; -100] ∧
  summary [AAPL; TSLA] = PortfolioSummary.mk 2400 2000 400 0.2 ∧
  summarize (deriveAndSort localeCompare [AAPL; TSLA] gain desc) =
    PortfolioSummary.mk 2400 2000 400 0.2.
Proof. repeat split; vm_compute; reflexivity. Qed.

(** ** Session restoration *)

Example sample_JSON_parse_stringify :
  sample_JSON_parse (sample_JSON_stringify alice) = Some (identity alice).
Proof. vm_compute. reflexivity. Qed.

Example sample_JSON_parse_not_json :
  sample_JSON_parse "{not json" = None ∧ sample_JSON_parse EmptyString = None ∧
  sample_JSON_parse "null" = Some null.
Proof. repeat split; vm_compute; reflexivity. Qed.

(** Runs a computation of [M] on a given world. *)
Ltac run_M :=
  unfold try_catch_finally, mbind, M_bind, bind, ret, throw,
    localStorage_getItem, localStorage_setItem, localStorage_removeItem,
    setUser, setIsLoading, toast, navigate, console_error;
  cbn.

Section AuthProviderFacts.
Variable STORAGE_KEYS : StorageKeys.t.
Variable JSON_parse : string → option UserValue.

Abbreviation AUTH_TOKEN := (StorageKeys.AUTH_TOKEN STORAGE_KEYS).
Abbreviation USER := (StorageKeys.USER STORAGE_KEYS).
Abbreviation restore := (initializeAuth STORAGE_KEYS JSON_parse).

(** Unless both stored values are present, [restore] neither parses nor
    clears anything. *)
Lemma restore_skips (storage : gmap string string) :
  truthy (storage !! AUTH_TOKEN) && truthy (storage !! USER) = false →
  restore (AuthProvider_mount storage) =
    (Return (), mkWorld null false storage [] [] []).
Proof.
  intros Hboth. unfold initializeAuth, getAuthToken. run_M.
  rewrite Hboth. reflexivity.
Qed.

(** With both present and a text that parses, the parsed value becomes
    the user. *)
Lemma restore_parsed (storage : gmap string string) (savedUser : string) (u : UserValue) :
  truthy (storage !! AUTH_TOKEN) = true →
  storage !! USER = Some savedUser → savedUser ≠ EmptyString →
  JSON_parse savedUser = Some u →
  restore (AuthProvider_mount storage) =
    (Return (), mkWorld u false storage [] [] []).
Proof.
  intros Htoken Huser Hne Hparse.
  unfold initializeAuth, getAuthToken, clearAuthToken. run_M.
  rewrite Htoken, Huser. cbn. rewrite bool_decide_eq_true_2 by done.
  cbn. rewrite Hparse. reflexivity.
Qed.

(** With both present and an identity that does not parse, both entries
    are removed and the error is logged. *)
Lemma restore_unparseable (storage : gmap string string) (savedUser : string) :
  truthy (storage !! AUTH_TOKEN) = true →
  storage !! USER = Some savedUser → savedUser ≠ EmptyString →
  JSON_parse savedUser = None →
  restore (AuthProvider_mount storage) =
    (Return (), mkWorld null false (delete USER (delete AUTH_TOKEN storage))
                  [] [] [SyntaxError]).
Proof.
  intros Htoken Huser Hne Hparse.
  unfold initializeAuth, getAuthToken, clearAuthToken. run_M.
  rewrite Htoken, Huser. cbn. rewrite bool_decide_eq_true_2 by done.
  cbn. rewrite Hparse. reflexivity.
Qed.
End AuthProviderFacts.




(** C10.  When the storage holds exactly one of the two values, [restore]
    returns normally with an unauthenticated session and the storage is
    left as it was: the lone entry stays. *)
Theorem restore_lone_entry_kept (STORAGE_KEYS : StorageKeys.t)
    (JSON_parse : string → option UserValue) (storage : gmap string string) :
  (storage !! StorageKeys.AUTH_TOKEN STORAGE_KEYS = None ∧
     is_Some (storage !! StorageKeys.USER STORAGE_KEYS)) ∨
  (is_Some (storage !! StorageKeys.AUTH_TOKEN STORAGE_KEYS) ∧
     storage !! StorageKeys.USER STORAGE_KEYS = None) →
  ∃ w, initializeAuth STORAGE_KEYS JSON_parse (AuthProvider_mount storage) = (Return (), w) ∧
       isAuthenticated w = false ∧
       localStorage w = storage.
Proof.
  intros Hone. eexists. split.
  - apply restore_skips.
    destruct Hone as [[-> _]|[_ ->]]; [done|]. apply andb_false_r.
  - by split.
Qed.

Lemma restore_lone_entry_kept_witness :
  ∃ w, initializeAuth sample_STORAGE_KEYS sample_JSON_parse
         (AuthProvider_mount {[ "auth_token" := "tok123" ]}) = (Return (), w) ∧
       isAuthenticated w = false ∧
       localStorage w = {[ "auth_token" := "tok123" ]}.
Proof.
  apply restore_lone_entry_kept. right. split.
  - exists "tok123". vm_compute. reflexivity.
  - vm_compute. reflexivity.
Defined.

(** ** The loading flag *)

(** C3, evaluated.  The provider mounts with [isLoading = false] and the
    flag is never set while the session is restored: on a valid stored
    session the first render of a protected route is the redirect to the
    login view, and the route shows its children only once [restore] has
    run. *)
Theorem ProtectedRoute_first_render_redirects :
  map isLoading
    (AuthProvider_lifecycle sample_STORAGE_KEYS sample_JSON_parse valid_storage) =
    [false; false] ∧
  map ProtectedRoute
    (AuthProvider_lifecycle sample_STORAGE_KEYS sample_JSON_parse valid_storage) =
    [Navigate LOGIN; children].
Proof. split; vm_compute; reflexivity. Qed.

(** In every state with the loading flag set, the route renders the
    loading page. *)
Lemma ProtectedRoute_loading (w : World) :
  isLoading w = true → ProtectedRoute w = LoadingPage "Checking authentication...".
Proof. unfold ProtectedRoute. by intros ->. Qed.

(** Whatever the storage holds, the first render is the redirect. *)
Lemma ProtectedRoute_mount (storage : gmap string string) :
  ProtectedRoute (AuthProvider_mount storage) = Navigate LOGIN.
Proof. reflexivity. Qed.

(** Once a valid session is restored the route shows its children. *)
Lemma ProtectedRoute_restored (STORAGE_KEYS : StorageKeys.t)
    (JSON_parse : string → option UserValue)
    (storage : gmap string string) (token savedUser : string) (u : AuthUser.t) :
  storage !! StorageKeys.AUTH_TOKEN STORAGE_KEYS = Some token → token ≠ EmptyString →
  storage !! StorageKeys.USER STORAGE_KEYS = Some savedUser → savedUser ≠ EmptyString →
  JSON_parse savedUser = Some (identity u) →
  map ProtectedRoute (AuthProvider_lifecycle STORAGE_KEYS JSON_parse storage) =
    [Navigate LOGIN; children].
Proof.
  intros Htoken Hne Huser Hne' Hparse. unfold AuthProvider_lifecycle.
  rewrite (restore_parsed STORAGE_KEYS JSON_parse storage savedUser (identity u));
    [done| |done..].
  rewrite Htoken. simpl. by apply bool_decide_eq_true_2.
Qed.

(** ** Login *)

(** C6.  When the gateway call succeeds, [login] stores the credential and
    the identity, sets the user, announces it and navigates to the
    dashboard; when it fails, the user and the storage are as before, the
    "Login Failed" toast is shown and the error is thrown to the caller.
    In both cases loading is over. *)
Theorem login_outcome (STORAGE_KEYS : StorageKeys.t)
    (JSON_stringify : AuthUser.t → string)
    (apiLogin : LoginRequest.t → Completion AuthResponse.t)
    (credentials : LoginRequest.t) (w : World) :
  match apiLogin credentials with
  | Return response =>
      ∃ w', login STORAGE_KEYS JSON_stringify apiLogin credentials w = (Return (), w') ∧
            isAuthenticated w' = true ∧
            user w' = identity (AuthResponse.user response) ∧
            localStorage w' =
              <[StorageKeys.USER STORAGE_KEYS := JSON_stringify (AuthResponse.user response)]>
                (<[StorageKeys.AUTH_TOKEN STORAGE_KEYS := AuthResponse.token response]>
                   (localStorage w)) ∧
            navigations w' = navigations w ++ [DASHBOARD] ∧
            isLoading w' = false
  | Throw error =>
      ∃ w', login STORAGE_KEYS JSON_stringify apiLogin credentials w = (Throw error, w') ∧
            user w' = user w ∧
            isAuthenticated w' = isAuthenticated w ∧
            localStorage w' = localStorage w ∧
            toasts w' = toasts w ++
              [Toast.mk destructive "Login Failed"
                 (or_else (Error.message error) "Invalid email or password")] ∧
            navigations w' = navigations w ∧
            isLoading w' = false
  end.
Proof.
  unfold login, setAuthToken. run_M.
  destruct (apiLogin credentials) as [response|error]; cbn; eexists; done.
Qed.

(** ** Mutations *)

(** C5.  For each of the six mutations: when the gateway call fails the
    query cache is exactly the cache before the call; when it succeeds the
    cache is the old one with the dependent keys invalidated. *)
Theorem mutation_cache (m : Mutation) (settled : Completion unit) (c : Client) :
  queryCache (runMutation m settled c) =
  match settled with
  | Return _ => queryCache (foldl (λ c key, invalidateQueries key c) c (invalidatedKeys m))
  | Throw _ => queryCache c
  end.
Proof. by destruct m, settled. Qed.

(** The mutation-failure scenario of the specification: a rejected
    [createTransaction] leaves the holdings entry of the portfolio as it
    was, and an accepted one marks it invalidated. *)
Example createTransaction_scenario :
  let key := holdingKeys.list "p1" "u1" in
  let c := mkClient {[ key := Query.mk "holdings of p1" false ]} [] in
  let m := CreateTransaction (Variables.mkCreateTransaction "u1" "p1") in
  queryCache (runMutation m (Throw (Error.mk None None)) c) !! key =
    Some (Query.mk "holdings of p1" false) ∧
  queryCache (runMutation m (Return ()) c) !! key =
    Some (Query.mk "holdings of p1" true).
Proof. split; vm_compute; reflexivity. Qed.

(** * The rest of the cited files: properties *)

(** ** AuthContext: logout, register and the stored session *)

Lemma delete_both_idemp (k1 k2 : string) (m : gmap string string) :
  delete k2 (delete k1 (delete k2 (delete k1 m))) = delete k2 (delete k1 m).
Proof.
  apply map_eq. intros k. rewrite !lookup_delete.
  repeat case_decide; done.
Qed.

Lemma logout_run (STORAGE_KEYS : StorageKeys.t) (w : World) :
  logout STORAGE_KEYS w =
    (Return (),
     mkWorld null (isLoading w)
       (delete (StorageKeys.USER STORAGE_KEYS)
          (delete (StorageKeys.AUTH_TOKEN STORAGE_KEYS) (localStorage w)))
       (toasts w ++ [Toast.mk plain "Logged Out" "You have been logged out successfully."])
       (navigations w ++ [LOGIN]) (console w)).
Proof. unfold logout, apiLogout, clearAuthToken. run_M. reflexivity. Qed.

(** X1.  From every state, authenticated or not, [logout] returns normally:
    the user is gone, neither key is left in the storage, every other entry
    of the storage is untouched, one toast is shown and the login view is
    requested.  A second [logout] changes neither the user nor the
    storage. *)
Theorem logout_clears_session (STORAGE_KEYS : StorageKeys.t) (w : World) :
  ∃ w', logout STORAGE_KEYS w = (Return (), w') ∧
        isAuthenticated w' = false ∧
        localStorage w' !! StorageKeys.AUTH_TOKEN STORAGE_KEYS = None ∧
        localStorage w' !! StorageKeys.USER STORAGE_KEYS = None ∧
        (∀ key, key ≠ StorageKeys.AUTH_TOKEN STORAGE_KEYS →
                key ≠ StorageKeys.USER STORAGE_KEYS →
                localStorage w' !! key = localStorage w !! key) ∧
        toasts w' = toasts w ++
          [Toast.mk plain "Logged Out" "You have been logged out successfully."] ∧
        navigations w' = navigations w ++ [LOGIN] ∧
        user (logout STORAGE_KEYS w').2 = user w' ∧
        localStorage (logout STORAGE_KEYS w').2 = localStorage w'.
Proof.
  eexists. split; [apply logout_run|]. rewrite logout_run. cbn. repeat split.
  - rewrite lookup_delete. case_decide; [done|apply lookup_delete_eq].
  - apply lookup_delete_eq.
  - intros key Hk1 Hk2. by rewrite !lookup_delete_ne.
  - apply delete_both_idemp.
Qed.

(** X2.  When the gateway call succeeds, [register] stores the credential
    and the identity, sets the user, announces it and navigates to the
    dashboard; when it fails, the user and the storage are as before, the
    "Registration Failed" toast is shown, nothing is navigated and the error
    is thrown to the caller.  In both cases loading is over. *)
Theorem register_outcome (STORAGE_KEYS : StorageKeys.t)
    (JSON_stringify : AuthUser.t → string)
    (apiRegister : RegisterRequest.t → Completion AuthResponse.t)
    (data : RegisterRequest.t) (w : World) :
  match apiRegister data with
  | Return response =>
      ∃ w', register STORAGE_KEYS JSON_stringify apiRegister data w = (Return (), w') ∧
            user w' = identity (AuthResponse.user response) ∧
            localStorage w' =
              <[StorageKeys.USER STORAGE_KEYS := JSON_stringify (AuthResponse.user response)]>
                (<[StorageKeys.AUTH_TOKEN STORAGE_KEYS := AuthResponse.token response]>
                   (localStorage w)) ∧
            toasts w' = toasts w ++
              [Toast.mk plain "Account Created!"
                 ("Welcome to the Portfolio tracker , " +:+
                  AuthUser.email (AuthResponse.user response) +:+ "!")] ∧
            navigations w' = navigations w ++ [DASHBOARD] ∧
            isLoading w' = false
  | Throw error =>
      ∃ w', register STORAGE_KEYS JSON_stringify apiRegister data w = (Throw error, w') ∧
            user w' = user w ∧
            localStorage w' = localStorage w ∧
            toasts w' = toasts w ++
              [Toast.mk destructive "Registration Failed"
                 (or_else (Error.message error) "Failed to create account")] ∧
            navigations w' = navigations w ∧
            isLoading w' = false
  end.
Proof.
  unfold register, setAuthToken. run_M.
  destruct (apiRegister data) as [response|error]; cbn; eexists; done.
Qed.

Lemma login_success_run (STORAGE_KEYS : StorageKeys.t)
    (JSON_stringify : AuthUser.t → string)
    (apiLogin : LoginRequest.t → Completion AuthResponse.t)
    (credentials : LoginRequest.t) (response : AuthResponse.t) (w : World) :
  apiLogin credentials = Return response →
  login STORAGE_KEYS JSON_stringify apiLogin credentials w =
    (Return (),
     mkWorld (identity (AuthResponse.user response)) false
       (<[StorageKeys.USER STORAGE_KEYS := JSON_stringify (AuthResponse.user response)]>
          (<[StorageKeys.AUTH_TOKEN STORAGE_KEYS := AuthResponse.token response]>
             (localStorage w)))
       (toasts w ++
          [Toast.mk plain "Welcome back!"
             ("Logged in as , " +:+ AuthUser.email (AuthResponse.user response) +:+ "!")])
       (navigations w ++ [DASHBOARD]) (console w)).
Proof. intros Hapi. unfold login, setAuthToken. run_M. by rewrite Hapi. Qed.

Lemma login_failure_run (STORAGE_KEYS : StorageKeys.t)
    (JSON_stringify : AuthUser.t → string)
    (apiLogin : LoginRequest.t → Completion AuthResponse.t)
    (credentials : LoginRequest.t) (error : Error.t) (w : World) :
  apiLogin credentials = Throw error →
  login STORAGE_KEYS JSON_stringify apiLogin credentials w =
    (Throw error,
     mkWorld (user w) false (localStorage w)
       (toasts w ++
          [Toast.mk destructive "Login Failed"
             (or_else (Error.message error) "Invalid email or password")])
       (navigations w) (console w)).
Proof. intros Hapi. unfold login, setAuthToken. run_M. by rewrite Hapi. Qed.

(** X3.  Round trip of the session: after a successful [login] with a
    non-empty credential, restoring from the storage it left (a reload of
    the page) yields the identity the gateway returned, provided the two
    keys differ and the identity survives [JSON.stringify] followed by
    [JSON.parse]. *)
Theorem login_then_restore (STORAGE_KEYS : StorageKeys.t)
    (JSON_parse : string → option UserValue) (JSON_stringify : AuthUser.t → string)
    (apiLogin : LoginRequest.t → Completion AuthResponse.t)
    (credentials : LoginRequest.t) (response : AuthResponse.t) (w : World) :
  StorageKeys.AUTH_TOKEN STORAGE_KEYS ≠ StorageKeys.USER STORAGE_KEYS →
  apiLogin credentials = Return response →
  AuthResponse.token response ≠ EmptyString →
  JSON_stringify (AuthResponse.user response) ≠ EmptyString →
  JSON_parse (JSON_stringify (AuthResponse.user response)) =
    Some (identity (AuthResponse.user response)) →
  ∃ w',
    initializeAuth STORAGE_KEYS JSON_parse
      (AuthProvider_mount
         (localStorage (login STORAGE_KEYS JSON_stringify apiLogin credentials w).2)) =
      (Return (), w') ∧
    user w' = identity (AuthResponse.user response) ∧
    localStorage w' =
      localStorage (login STORAGE_KEYS JSON_stringify apiLogin credentials w).2.
Proof.
  intros Hkeys Hapi Htoken Hne Hparse.
  rewrite (login_success_run _ _ _ _ _ _ Hapi). cbn.
  eexists. split.
  - eapply restore_parsed; [| |exact Hne|exact Hparse].
    + rewrite lookup_insert_ne by done. rewrite lookup_insert_eq. simpl.
      by apply bool_decide_eq_true_2.
    + apply lookup_insert_eq.
  - by split.
Qed.

Lemma login_then_restore_witness :
  ∃ w',
    initializeAuth sample_STORAGE_KEYS sample_JSON_parse
      (AuthProvider_mount
         (localStorage
            (login sample_STORAGE_KEYS sample_JSON_stringify
               (λ _, Return (AuthResponse.mk "tok123" alice))
               (LoginRequest.mk "alice@example.com" "correct horse")
               (AuthProvider_mount ∅)).2)) = (Return (), w') ∧
    user w' = identity alice ∧
    localStorage w' =
      localStorage
        (login sample_STORAGE_KEYS sample_JSON_stringify
           (λ _, Return (AuthResponse.mk "tok123" alice))
           (LoginRequest.mk "alice@example.com" "correct horse")
           (AuthProvider_mount ∅)).2.
Proof.
  apply (login_then_restore sample_STORAGE_KEYS sample_JSON_parse sample_JSON_stringify
           (λ _, Return (AuthResponse.mk "tok123" alice))
           (LoginRequest.mk "alice@example.com" "correct horse")
           (AuthResponse.mk "tok123" alice)).
  - discriminate.
  - reflexivity.
  - discriminate.
  - vm_compute. discriminate.
  - vm_compute. reflexivity.
Defined.

(** X4.  After [logout], restoring from the storage it left finds no
    session: the reloaded page is unauthenticated and its storage is the one
    [logout] left. *)
Theorem logout_then_restore (STORAGE_KEYS : StorageKeys.t)
    (JSON_parse : string → option UserValue) (w : World) :
  ∃ w',
    initializeAuth STORAGE_KEYS JSON_parse
      (AuthProvider_mount (localStorage (logout STORAGE_KEYS w).2)) = (Return (), w') ∧
    isAuthenticated w' = false ∧
    localStorage w' = localStorage (logout STORAGE_KEYS w).2.
Proof.
  rewrite logout_run. cbn. eexists. split.
  - apply restore_skips. rewrite lookup_delete_eq. apply andb_false_r.
  - by split.
Qed.

(** X5.  Whatever the storage holds, [restore] returns normally with
    loading over and shows nothing.  When both entries are present and
    [JSON.parse] returns a value for the identity string, that value becomes
    the user, whether it is an identity or not, and the storage is left as it
    was; when both are present and [JSON.parse] throws, both entries are
    removed and there is no user; otherwise there is no user and the storage
    is left as it was. *)
Theorem restore_total (STORAGE_KEYS : StorageKeys.t)
    (JSON_parse : string → option UserValue) (storage : gmap string string) :
  let present :=
    truthy (storage !! StorageKeys.AUTH_TOKEN STORAGE_KEYS) &&
    truthy (storage !! StorageKeys.USER STORAGE_KEYS) in
  let parsed :=
    JSON_parse (default EmptyString (storage !! StorageKeys.USER STORAGE_KEYS)) in
  ∃ w, initializeAuth STORAGE_KEYS JSON_parse (AuthProvider_mount storage) = (Return (), w) ∧
       isLoading w = false ∧ toasts w = [] ∧ navigations w = [] ∧
       user w = (if present then default null parsed else null) ∧
       localStorage w =
         (if present && bool_decide (parsed = None)
          then delete (StorageKeys.USER STORAGE_KEYS)
                 (delete (StorageKeys.AUTH_TOKEN STORAGE_KEYS) storage)
          else storage).
Proof.
  intros present parsed. subst present parsed.
  destruct (truthy (storage !! StorageKeys.AUTH_TOKEN STORAGE_KEYS) &&
            truthy (storage !! StorageKeys.USER STORAGE_KEYS)) eqn:Hboth.
  - apply andb_true_iff in Hboth as [Htoken Huser].
    destruct (storage !! StorageKeys.USER STORAGE_KEYS) as [savedUser|] eqn:Hsaved;
      [|discriminate].
    simpl in Huser. apply bool_decide_eq_true in Huser. simpl.
    destruct (JSON_parse savedUser) as [u|] eqn:Hparse.
    + eexists. split; [by eapply restore_parsed|]. by rewrite bool_decide_eq_false_2.
    + eexists. split; [by eapply restore_unparseable|]. by rewrite bool_decide_eq_true_2.
  - eexists. split; [by apply restore_skips|]. done.
Qed.

Lemma register_sessionStored (STORAGE_KEYS : StorageKeys.t)
    (JSON_stringify : AuthUser.t → string)
    (apiRegister : RegisterRequest.t → Completion AuthResponse.t)
    (data : RegisterRequest.t) (w : World) :
  sessionStored STORAGE_KEYS w →
  sessionStored STORAGE_KEYS (register STORAGE_KEYS JSON_stringify apiRegister data w).2.
Proof.
  intros Hw. unfold register, setAuthToken. run_M.
  destruct (apiRegister data) as [response|error]; cbn.
  - intros _. cbn. split; rewrite lookup_insert; case_decide; try done;
      rewrite lookup_insert_eq; done.
  - exact Hw.
Qed.

Lemma login_sessionStored (STORAGE_KEYS : StorageKeys.t)
    (JSON_stringify : AuthUser.t → string)
    (apiLogin : LoginRequest.t → Completion AuthResponse.t)
    (credentials : LoginRequest.t) (w : World) :
  sessionStored STORAGE_KEYS w →
  sessionStored STORAGE_KEYS (login STORAGE_KEYS JSON_stringify apiLogin credentials w).2.
Proof.
  intros Hw. destruct (apiLogin credentials) as [response|error] eqn:Hapi.
  - rewrite (login_success_run _ _ _ _ _ _ Hapi). intros _. cbn.
    split; rewrite lookup_insert; case_decide; try done;
      rewrite lookup_insert_eq; done.
  - rewrite (login_failure_run _ _ _ _ _ _ Hapi). exact Hw.
Qed.

Lemma restore_sessionStored (STORAGE_KEYS : StorageKeys.t)
    (JSON_parse : string → option UserValue) (storage : gmap string string) :
  sessionStored STORAGE_KEYS
    (initializeAuth STORAGE_KEYS JSON_parse (AuthProvider_mount storage)).2.
Proof.
  destruct (truthy (storage !! StorageKeys.AUTH_TOKEN STORAGE_KEYS) &&
            truthy (storage !! StorageKeys.USER STORAGE_KEYS)) eqn:Hboth.
  - apply andb_true_iff in Hboth as [Htoken Huser].
    destruct (storage !! StorageKeys.USER STORAGE_KEYS) as [savedUser|] eqn:Hsaved;
      [|discriminate].
    simpl in Huser. apply bool_decide_eq_true in Huser.
    destruct (JSON_parse savedUser) as [u|] eqn:Hparse.
    + rewrite (restore_parsed _ _ _ _ _ Htoken Hsaved Huser Hparse).
      intros _. cbn. rewrite Hsaved. split; [|done].
      destruct (storage !! StorageKeys.AUTH_TOKEN STORAGE_KEYS); [done|discriminate].
    + rewrite (restore_unparseable _ _ _ _ Htoken Hsaved Huser Hparse). discriminate.
  - rewrite (restore_skips _ _ _ Hboth). discriminate.
Qed.

(** X6.  A user in memory always comes with both entries in the storage:
    the property holds after [restore] on a fresh mount and is kept by
    [login], [register] and [logout], whatever the gateway answers. *)
Theorem sessionStored_invariant (STORAGE_KEYS : StorageKeys.t)
    (JSON_parse : string → option UserValue) (JSON_stringify : AuthUser.t → string)
    (apiLogin : LoginRequest.t → Completion AuthResponse.t)
    (apiRegister : RegisterRequest.t → Completion AuthResponse.t)
    (credentials : LoginRequest.t) (data : RegisterRequest.t)
    (storage : gmap string string) (w : World) :
  sessionStored STORAGE_KEYS w →
  sessionStored STORAGE_KEYS
    (initializeAuth STORAGE_KEYS JSON_parse (AuthProvider_mount storage)).2 ∧
  sessionStored STORAGE_KEYS (login STORAGE_KEYS JSON_stringify apiLogin credentials w).2 ∧
  sessionStored STORAGE_KEYS (register STORAGE_KEYS JSON_stringify apiRegister data w).2 ∧
  sessionStored STORAGE_KEYS (logout STORAGE_KEYS w).2.
Proof.
  intros Hw.
  split; [apply restore_sessionStored|].
  split; [by apply login_sessionStored|].
  split; [by apply register_sessionStored|].
  rewrite logout_run. discriminate.
Qed.

Lemma sessionStored_invariant_witness :
  let w := mkWorld (identity alice) false valid_storage [] [] [] in
  let apiLogin := λ _ : LoginRequest.t, Throw (Error.mk (Some "Invalid credentials") None) in
  let apiRegister := λ _ : RegisterRequest.t, Return (AuthResponse.mk "tok456" alice) in
  sessionStored sample_STORAGE_KEYS
    (initializeAuth sample_STORAGE_KEYS sample_JSON_parse
       (AuthProvider_mount corrupted_storage)).2 ∧
  sessionStored sample_STORAGE_KEYS
    (login sample_STORAGE_KEYS sample_JSON_stringify apiLogin
       (LoginRequest.mk "alice@example.com" "wrong") w).2 ∧
  sessionStored sample_STORAGE_KEYS
    (register sample_STORAGE_KEYS sample_JSON_stringify apiRegister
       (RegisterRequest.mk "alice@example.com" "correct horse" None) w).2 ∧
  sessionStored sample_STORAGE_KEYS (logout sample_STORAGE_KEYS w).2.
Proof.
  intros w apiLogin apiRegister.
  apply (sessionStored_invariant sample_STORAGE_KEYS sample_JSON_parse).
  intros _. split; [exists "tok123"|eexists]; vm_compute; reflexivity.
Defined.

(** ** LoginForm *)

(** Runs a computation over the state of a component. *)
Ltac run_Eff :=
  unfold eff_try_catch_finally, eff_try_catch, mbind, mret, Eff_bind, Eff_ret,
    eff_bind, eff_ret;
  cbn.

(** X7.  [onSubmit] of the login form never throws and always ends with
    [isSubmitting = false].  A rejected login is caught: the error is
    written to the console after the toast of the context, and nothing is
    navigated; an accepted login leaves the console alone and navigates to
    the dashboard. *)
Theorem LoginForm_onSubmit_outcome (STORAGE_KEYS : StorageKeys.t)
    (JSON_stringify : AuthUser.t → string)
    (apiLogin : LoginRequest.t → Completion AuthResponse.t)
    (data : LoginRequest.t) (s : LoginForm) :
  ∃ s', LoginForm_onSubmit (login STORAGE_KEYS JSON_stringify apiLogin) data s =
          (Return (), s') ∧
        isSubmitting s' = false ∧
        match apiLogin data with
        | Return response =>
            user (auth s') = identity (AuthResponse.user response) ∧
            navigations (auth s') = navigations (auth s) ++ [DASHBOARD] ∧
            console (auth s') = console (auth s)
        | Throw error =>
            user (auth s') = user (auth s) ∧
            localStorage (auth s') = localStorage (auth s) ∧
            toasts (auth s') = toasts (auth s) ++
              [Toast.mk destructive "Login Failed"
                 (or_else (Error.message error) "Invalid email or password")] ∧
            navigations (auth s') = navigations (auth s) ∧
            console (auth s') = console (auth s) ++ [error]
        end.
Proof.
  unfold LoginForm_onSubmit, useAuth, setIsSubmitting. run_Eff.
  destruct (apiLogin data) as [response|error] eqn:Hapi.
  - rewrite (login_success_run _ _ _ _ _ _ Hapi). cbn. eexists. done.
  - rewrite (login_failure_run _ _ _ _ _ _ Hapi). cbn. eexists. done.
Qed.

(** ** HoldingsTable: what the sort keeps and yields *)

(** X8.  Sorting neither drops, nor repeats, nor alters a row: the holdings
    behind the rows of the table are the holdings given, each as often as it
    was given, and every row is the enrichment of its holding. *)
Theorem deriveAndSort_keeps_rows (localeCompare : string → string → Z)
    (H : list Holding.t) (f : SortField) (d : SortDirection) :
  map EnrichedHolding.holding (deriveAndSort localeCompare H f d) ≡ₚ H ∧
  length (deriveAndSort localeCompare H f d) = length H ∧
  Forall (λ row, row = enrich (EnrichedHolding.holding row))
    (deriveAndSort localeCompare H f d).
Proof.
  split; [|split].
  - apply deriveAndSort_holdings.
  - rewrite (deriveAndSort_Permutation localeCompare H f d).
    unfold enrichedHoldings. apply length_map.
  - apply deriveAndSort_enriched.
Qed.

(** X9.  Under a consistent [localeCompare], and when no row has [NaN] for
    its key, the table is sorted for its comparator: no row stands before a
    row the comparator puts in front of it, for every field and both
    directions. *)
Theorem deriveAndSort_sorted (localeCompare : string → string → Z)
    (H : list Holding.t) (f : SortField) (d : SortDirection) :
  consistent localeCompare →
  Forall (sortable f) (enrichedHoldings H) →
  StronglySorted (λ a b, number_pos (comparator localeCompare f d a b) = false)
    (deriveAndSort localeCompare H f d).
Proof. intros Hlc Hrows. by apply sortedHoldings_StronglySorted. Qed.

Lemma deriveAndSort_sorted_witness :
  StronglySorted (λ a b, number_pos (comparator codeUnitCompare gainPercent desc a b) = false)
    (deriveAndSort codeUnitCompare [AAPL; TSLA; MSFT] gainPercent desc).
Proof.
  apply deriveAndSort_sorted; [exact codeUnitCompare_consistent|].
  repeat constructor; vm_compute; reflexivity.
Defined.

(** X10.  Sorted by a numeric field none of whose keys is [NaN], the rows
    carry non-decreasing numbers in the ascending direction and
    non-increasing numbers in the descending one, whatever [localeCompare]
    does. *)
Theorem deriveAndSort_numeric_order (localeCompare : string → string → Z)
    (H : list Holding.t) (f : SortField) (d : SortDirection)
    (key : EnrichedHolding.t → number) :
  (∀ a, sortValue f a = Num (key a)) →
  Forall (λ h, is_nan (key (enrich h)) = false) H →
  StronglySorted
    (λ a b, match d with
            | asc => (key a <=? key b) = true
            | desc => (key b <=? key a) = true
            end)
    (deriveAndSort localeCompare H f d).
Proof.
  intros Hkey Hnan. unfold deriveAndSort, sortedHoldings.
  assert (Hcmp : ∀ a b, number_pos (comparator localeCompare f d a b) =
            match d with asc => key b <? key a | desc => key a <? key b end).
  { intros a b. unfold comparator. rewrite !Hkey.
    destruct d; cbn [compareValues]; apply ltb_0_sub. }
  assert (Hrows : Forall (λ a, is_nan (key a) = false) (enrichedHoldings H)).
  { unfold enrichedHoldings. by apply Forall_fmap. }
  assert (Hsort : StronglySorted
            (λ a b, notAfter (comparator localeCompare f d) a b ∧
                    is_nan (key a) = false ∧ is_nan (key b) = false)
            (Array_sort (comparator localeCompare f d) (enrichedHoldings H))).
  { assert (Hs : StronglySorted (notAfter (comparator localeCompare f d))
              (Array_sort (comparator localeCompare f d) (enrichedHoldings H))).
    { apply (Array_sort_StronglySorted _ (λ a, is_nan (key a) = false)); [| |done].
      - intros x y _ _. unfold notAfter. rewrite !Hcmp. destruct d; apply ltb_asym.
      - intros x y z _ Hy _. unfold notAfter. rewrite !Hcmp.
        destruct d; intros Hxy Hyz; by eapply ltb_false_trans. }
    assert (Hall : Forall (λ a, is_nan (key a) = false)
              (Array_sort (comparator localeCompare f d) (enrichedHoldings H))).
    { by rewrite Array_sort_Permutation. }
    induction Hs as [|a l Hl IH Ha]; [constructor|].
    apply Forall_cons in Hall as [Hka Hall]. constructor; [by apply IH|].
    rewrite Forall_forall in Ha, Hall. apply Forall_forall. intros b Hb. auto. }
  eapply StronglySorted_weaken; [|exact Hsort].
  intros a b (Hab & Ha & Hb). unfold notAfter in Hab. rewrite Hcmp in Hab.
  destruct d; rewrite leb_ord by done; rewrite ltb_ord in Hab by done;
    apply bool_decide_eq_false in Hab; apply bool_decide_eq_true; lia.
Qed.

Lemma deriveAndSort_numeric_order_witness :
  StronglySorted
    (λ a b, (EnrichedHolding.unrealizedGain b <=? EnrichedHolding.unrealizedGain a) = true)
    (deriveAndSort codeUnitCompare [TSLA; MSFT; AAPL] gain desc).
Proof.
  apply (deriveAndSort_numeric_order codeUnitCompare [TSLA; MSFT; AAPL] gain desc
           EnrichedHolding.unrealizedGain); [done|].
  repeat constructor.
Defined.

(** X11.  The sort is stable: among the rows that tie with a given row, the
    table keeps the order of the input, under a consistent [localeCompare]
    and when no key is [NaN]. *)
Theorem deriveAndSort_stable (localeCompare : string → string → Z)
    (H : list Holding.t) (f : SortField) (d : SortDirection) (h : Holding.t) :
  consistent localeCompare →
  sortable f (enrich h) →
  Forall (sortable f) (enrichedHoldings H) →
  List.filter (ties (comparator localeCompare f d) (enrich h))
    (deriveAndSort localeCompare H f d) =
  List.filter (ties (comparator localeCompare f d) (enrich h)) (enrichedHoldings H).
Proof.
  intros Hlc Hh Hrows. unfold deriveAndSort, sortedHoldings.
  apply (Array_sort_stable _ (sortable f)); [|done..].
  intros x y z _ Hy _. by apply comparator_dir_trans.
Qed.

Lemma deriveAndSort_stable_witness :
  List.filter (ties (comparator codeUnitCompare shares desc) (enrich AAPL))
    (deriveAndSort codeUnitCompare [MSFT; TSLA; AAPL] shares desc) =
  List.filter (ties (comparator codeUnitCompare shares desc) (enrich AAPL))
    (enrichedHoldings [MSFT; TSLA; AAPL]).
Proof.
  apply deriveAndSort_stable; [exact codeUnitCompare_consistent|reflexivity|].
  repeat constructor.
Defined.

(** X12.  Sorting a table that is already sorted by the same field and
    direction changes nothing. *)
Theorem sortedHoldings_idempotent (localeCompare : string → string → Z)
    (H : list Holding.t) (f : SortField) (d : SortDirection) :
  consistent localeCompare →
  sortedHoldings localeCompare (deriveAndSort localeCompare H f d) f d =
  deriveAndSort localeCompare H f d.
Proof.
  intros Hlc. unfold deriveAndSort, sortedHoldings.
  apply Array_sort_idemp. intros x y. by apply comparator_dir_asym.
Qed.

Lemma sortedHoldings_idempotent_witness :
  sortedHoldings codeUnitCompare
    (deriveAndSort codeUnitCompare [MSFT; TSLA; AAPL] shares asc) shares asc =
  deriveAndSort codeUnitCompare [MSFT; TSLA; AAPL] shares asc.
Proof. apply sortedHoldings_idempotent. exact codeUnitCompare_consistent. Defined.

(** X13.  When no two different holdings tie under the field (the
    comparator, evaluated in binary64, moves neither past the other), the
    table does not depend on the order in which the holdings arrive. *)
Theorem deriveAndSort_input_order (localeCompare : string → string → Z)
    (H H' : list Holding.t) (f : SortField) (d : SortDirection) :
  consistent localeCompare →
  (∀ h1 h2, h1 ∈ H → h2 ∈ H →
     tied localeCompare f (enrich h1) (enrich h2) → h1 = h2) →
  H ≡ₚ H' →
  deriveAndSort localeCompare H f d = deriveAndSort localeCompare H' f d.
Proof.
  intros Hlc Hties HP.
  assert (Hties' : ∀ h1 h2, h1 ∈ H' → h2 ∈ H' →
            tied localeCompare f (enrich h1) (enrich h2) → h1 = h2).
  { intros h1 h2. rewrite <- !HP. apply Hties. }
  apply (StronglySorted_unique_strong (notAfter (comparator localeCompare f d))).
  - intros a b Ha Hb Hab Hba.
    rewrite (deriveAndSort_Permutation localeCompare H f d) in Ha.
    rewrite (deriveAndSort_Permutation localeCompare H' f d) in Hb.
    assert (Hb' : b ∈ enrichedHoldings H).
    { unfold enrichedHoldings in *. by rewrite HP. }
    apply (enriched_ties localeCompare f H Hties); [done..|].
    destruct d; [by split|]. apply notAfter_desc in Hab, Hba. by split.
  - apply sortedHoldings_StronglySorted_ties; [done|by apply enriched_ties].
  - apply sortedHoldings_StronglySorted_ties; [done|by apply enriched_ties].
  - rewrite !deriveAndSort_Permutation. unfold enrichedHoldings. by apply Permutation_map.
Qed.

Lemma deriveAndSort_input_order_witness :
  deriveAndSort codeUnitCompare [TSLA; AAPL] gain desc =
  deriveAndSort codeUnitCompare [AAPL; TSLA] gain desc.
Proof.
  apply deriveAndSort_input_order.
  - exact codeUnitCompare_consistent.
  - intros h1 h2 Hh1 Hh2 [T1 T2].
    apply elem_of_cons in Hh1 as [->|Hh1]; [|apply list_elem_of_singleton in Hh1 as ->];
    (apply elem_of_cons in Hh2 as [->|Hh2]; [|apply list_elem_of_singleton in Hh2 as ->]);
    try reflexivity; vm_compute in T1, T2; discriminate.
  - apply Permutation_swap.
Defined.

(** ** HoldingsTable: a holding without a price *)

(** X15.  A holding whose security has no current price is shown with a
    market value of zero and, when its book value is finite and above zero,
    as a total loss: the gain is the opposite of the book value and the gain
    percentage is exactly -1. *)
Theorem enrich_price_absent (h : Holding.t) :
  Security.currentPrice (Holding.security h) = None →
  is_finite (EnrichedHolding.bookValue (enrich h)) = true →
  (0 <? EnrichedHolding.bookValue (enrich h)) = true →
  (EnrichedHolding.marketValue (enrich h) =? 0) = true ∧
  EnrichedHolding.unrealizedGain (enrich h) = - EnrichedHolding.bookValue (enrich h) ∧
  EnrichedHolding.unrealizedGainPercent (enrich h) = -1.
Proof.
  cbn [enrich EnrichedHolding.marketValue EnrichedHolding.bookValue
    EnrichedHolding.unrealizedGain EnrichedHolding.unrealizedGainPercent].
  intros -> Hfin Hpos. cbn [or_zero]. rewrite Hpos.
  by apply total_loss.
Qed.

(** A holding of two shares bought at 50 whose security has no price. *)
Lemma enrich_price_absent_witness :
  let h := Holding.mk "h4" "p1" "s4" 2 (Some 50) (Security.mk "NEW" "Unpriced" None) in
  (EnrichedHolding.marketValue (enrich h) =? 0) = true ∧
  EnrichedHolding.unrealizedGain (enrich h) = - EnrichedHolding.bookValue (enrich h) ∧
  EnrichedHolding.unrealizedGainPercent (enrich h) = -1.
Proof. intros h. apply (enrich_price_absent h); reflexivity. Defined.

(** ** DashboardPage: the summary *)

Lemma foldl_cost_absent (H : list Holding.t) :
  Forall (λ h, Holding.averageCost h = None ∧ is_finite (Holding.totalShares h) = true) H →
  foldl (λ sum h, sum + Holding.totalShares h * or_zero (Holding.averageCost h)) 0 H = 0.
Proof.
  induction 1 as [|h H [Hcost Hfin] _ IH]; cbn [foldl]; [done|].
  rewrite Hcost. cbn [or_zero]. by rewrite add_0_mul_0.
Qed.

(** X18.  When no holding has an average cost and the share counts are
    finite, the total cost is 0, the total gain is the total value and the
    return is exactly 0. *)
Theorem summary_without_cost (H : list Holding.t) :
  Forall (λ h, Holding.averageCost h = None ∧ is_finite (Holding.totalShares h) = true) H →
  PortfolioSummary.totalCost (summary H) = 0 ∧
  PortfolioSummary.totalGain (summary H) = PortfolioSummary.totalValue (summary H) ∧
  PortfolioSummary.totalGainPercent (summary H) = 0.
Proof.
  intros Hcost. unfold summary.
  destruct (decide (length H = 0%nat)); [done|].
  cbn [PortfolioSummary.totalCost PortfolioSummary.totalGain PortfolioSummary.totalValue
       PortfolioSummary.totalGainPercent].
  rewrite (foldl_cost_absent H Hcost). by rewrite sub_0_r.
Qed.

Lemma summary_without_cost_witness :
  let h := Holding.mk "h5" "p1" "s5" 3 None (Security.mk "GIFT" "Gifted shares" (Some 20)) in
  PortfolioSummary.totalCost (summary [h]) = 0 ∧
  PortfolioSummary.totalGain (summary [h]) = PortfolioSummary.totalValue (summary [h]) ∧
  PortfolioSummary.totalGainPercent (summary [h]) = 0.
Proof. intros h. apply summary_without_cost. by repeat constructor. Defined.

(** ** Queries: the default portfolio and the holdings of the dashboard *)

Lemma find_first {A} (f : A → bool) (l : list A) (x : A) :
  List.find f l = Some x →
  ∃ l1 l2, l = l1 ++ x :: l2 ∧ Forall (λ y, f y = false) l1 ∧ f x = true.
Proof.
  induction l as [|y l IH]; [done|]. cbn. destruct (f y) eqn:Hy.
  - intros [= ->]. by exists [], l.
  - intros Hfind. destruct (IH Hfind) as (l1 & l2 & -> & Hl1 & Hx).
    exists (y :: l1), l2. split; [done|]. split; [by constructor|done].
Qed.

Lemma find_all_false {A} (f : A → bool) (l : list A) :
  Forall (λ y, f y = false) l → List.find f l = None.
Proof. induction 1 as [|y l Hy _ IH]; [done|]. cbn. by rewrite Hy. Qed.

(** X20.  The portfolio the dashboard works on: none exactly when the user
    has no portfolio; otherwise the first portfolio marked as default, and
    the first portfolio of the list when none is marked. *)
Theorem selectDefaultPortfolio_spec (portfolios : list PortfolioDto.t) :
  (selectDefaultPortfolio portfolios = None ↔ portfolios = []) ∧
  (∀ p, selectDefaultPortfolio portfolios = Some p →
        p ∈ portfolios ∧
        ((∃ l1 l2, portfolios = l1 ++ p :: l2 ∧
                   Forall (λ q, PortfolioDto.isDefault q = false) l1 ∧
                   PortfolioDto.isDefault p = true) ∨
         (Forall (λ q, PortfolioDto.isDefault q = false) portfolios ∧
          head portfolios = Some p))) ∧
  (∀ q, q ∈ portfolios → PortfolioDto.isDefault q = true →
        ∃ p, selectDefaultPortfolio portfolios = Some p ∧ PortfolioDto.isDefault p = true).
Proof.
  unfold selectDefaultPortfolio. split; [|split].
  - destruct (List.find _ _) as [p|] eqn:Hfind.
    + split; [done|]. intros ->. discriminate.
    + destruct portfolios; cbn; split; done.
  - intros p. destruct (List.find _ _) as [p'|] eqn:Hfind.
    + intros [= ->]. destruct (find_first _ _ _ Hfind) as (l1 & l2 & -> & Hl1 & Hp).
      split; [set_solver|]. left. by exists l1, l2.
    + destruct (head portfolios) as [p'|] eqn:Hhead; [|done]. intros [= ->].
      split; [by apply head_Some_elem_of|]. right. split; [|done].
      apply Forall_forall. intros q Hq.
      apply (find_none _ _ Hfind). by apply list_elem_of_In.
  - intros q Hq Hdef. destruct (List.find _ _) as [p|] eqn:Hfind.
    + exists p. split; [done|]. by apply find_some in Hfind as [_ ?].
    + apply list_elem_of_In in Hq. pose proof (find_none _ _ Hfind q Hq). congruence.
Qed.

Lemma nonEmpty_true (s : string) : nonEmpty s = true ↔ s ≠ EmptyString.
Proof. apply bool_decide_eq_true. Qed.

Lemma or_else_empty (x : option string) :
  or_else x EmptyString = default EmptyString x.
Proof. destruct x as [s|]; cbn; [|done]. by destruct (decide (s = EmptyString)). Qed.

(** X21.  The holdings query of the dashboard runs exactly when there is a
    user with a non-empty id whose portfolio list yields a portfolio with a
    non-empty id, and it is then cached under the list key of that portfolio
    and user; without a user or without a portfolio nothing is fetched. *)
Theorem DashboardPage_holdingsQuery_enabled (user : option AuthUser.t)
    (portfolios : list PortfolioDto.t) :
  (enabled (DashboardPage_holdingsQuery user portfolios) = true ↔
   ∃ u p, user = Some u ∧ AuthUser.id u ≠ EmptyString ∧
          selectDefaultPortfolio portfolios = Some p ∧
          PortfolioDto.id p ≠ EmptyString) ∧
  (∀ u p, user = Some u → AuthUser.id u ≠ EmptyString →
          selectDefaultPortfolio portfolios = Some p →
          PortfolioDto.id p ≠ EmptyString →
          DashboardPage_holdingsQuery user portfolios =
            mkQuery (holdingKeys.list (PortfolioDto.id p) (AuthUser.id u)) true).
Proof.
  unfold DashboardPage_holdingsQuery, DashboardPage_portfolio,
    useGetPortfolioHoldings, useGetDefaultPortfolio, userIdOf, portfolioIdOf.
  cbn [enabled]. rewrite !or_else_empty. split.
  - rewrite andb_true_iff, !nonEmpty_true.
    destruct user as [u|]; cbn.
    + destruct (nonEmpty (AuthUser.id u)) eqn:Hu.
      * apply nonEmpty_true in Hu.
        destruct (selectDefaultPortfolio portfolios) as [p|]; cbn.
        -- split; [intros [? ?]; by exists u, p|]. intros (u' & p' & ? & ? & ? & ?).
           by simplify_eq.
        -- split; [by intros [? ?]|]. by intros (u' & p' & ? & ? & ? & ?).
      * apply bool_decide_eq_false in Hu. cbn.
        split; [by intros [? ?]|]. intros (u' & p' & ? & ? & ? & ?). by simplify_eq.
    + split; [by intros [? ?]|]. by intros (u' & p' & ? & ? & ? & ?).
  - intros u p -> Hu Hsel Hp. cbn.
    apply nonEmpty_true in Hu as Hu'. rewrite Hu', Hsel. cbn.
    apply nonEmpty_true in Hp as Hp'. by rewrite Hp'.
Qed.

(** ** Mutations and the cached queries *)

Lemma lookup_invalidateQueries (queryKey k : list string) (c : Client) :
  queryCache (invalidateQueries queryKey c) !! k =
  (λ q, if bool_decide (queryKey `prefix_of` k) then invalidated q else q)
    <$> (queryCache c !! k).
Proof.
  unfold invalidateQueries. cbn. rewrite map_lookup_imap.
  by destruct (queryCache c !! k).
Qed.

Lemma invalidated_twice (q : Query.t) : invalidated (invalidated q) = invalidated q.
Proof. done. Qed.

(** X22.  When a mutation of a transaction succeeds, every query the hooks
    cache for holdings and portfolios is invalidated: holdings lists, holding
    details, portfolio lists and default portfolios, of every user and
    portfolio. *)
Theorem transaction_mutation_invalidates (m : Mutation) (c : Client)
    (portfolioId userId holdingId : string) :
  isTransactionMutation m = true →
  let after := queryCache (runMutation m (Return ()) c) in
  after !! queryKey (useGetPortfolioHoldings portfolioId userId) =
    invalidated <$> (queryCache c !! queryKey (useGetPortfolioHoldings portfolioId userId)) ∧
  after !! queryKey (useGetHoldingById holdingId userId portfolioId) =
    invalidated <$>
      (queryCache c !! queryKey (useGetHoldingById holdingId userId portfolioId)) ∧
  after !! queryKey (useGetUserPortfolios userId) =
    invalidated <$> (queryCache c !! queryKey (useGetUserPortfolios userId)) ∧
  after !! queryKey (useGetDefaultPortfolio userId) =
    invalidated <$> (queryCache c !! queryKey (useGetDefaultPortfolio userId)).
Proof.
  intros Hm after. subst after.
  destruct m; try discriminate; cbn [runMutation mutate onSuccess
    useCreateTransaction useUpdateTransaction useDeleteTransaction showToast queryCache];
    rewrite !lookup_invalidateQueries; cbn [queryKey useGetPortfolioHoldings
      useGetHoldingById useGetUserPortfolios useGetDefaultPortfolio];
    repeat split;
    match goal with
    | |- _ <$> (_ <$> ?o) = _ => destruct o as [q|]; [|done]
    end; cbn [fmap option_fmap option_map];
    repeat match goal with
    | |- context [bool_decide (holdingKeys.all `prefix_of` ?k)] =>
        first [ rewrite (bool_decide_eq_true_2 (holdingKeys.all `prefix_of` k))
                  by (eexists; cbn; reflexivity)
              | rewrite (bool_decide_eq_false_2 (holdingKeys.all `prefix_of` k))
                  by (intros [tail Htail]; cbn in Htail; simplify_eq) ]
    | |- context [bool_decide (portfolioKeys.all `prefix_of` ?k)] =>
        first [ rewrite (bool_decide_eq_true_2 (portfolioKeys.all `prefix_of` k))
                  by (eexists; cbn; reflexivity)
              | rewrite (bool_decide_eq_false_2 (portfolioKeys.all `prefix_of` k))
                  by (intros [tail Htail]; cbn in Htail; simplify_eq) ]
    end; done.
Qed.

Lemma transaction_mutation_invalidates_witness :
  let c := mkClient {[ holdingKeys.list "p1" "u1" := Query.mk "holdings of p1" false;
                       portfolioKeys.default "u1" := Query.mk "portfolio p1" false ]} [] in
  let after :=
    queryCache (runMutation (DeleteTransaction (Variables.mkDeleteTransaction "u1" "t1"))
                  (Return ()) c) in
  after !! queryKey (useGetPortfolioHoldings "p1" "u1") =
    invalidated <$> (queryCache c !! queryKey (useGetPortfolioHoldings "p1" "u1")) ∧
  after !! queryKey (useGetHoldingById "h1" "u1" "p1") =
    invalidated <$> (queryCache c !! queryKey (useGetHoldingById "h1" "u1" "p1")) ∧
  after !! queryKey (useGetUserPortfolios "u1") =
    invalidated <$> (queryCache c !! queryKey (useGetUserPortfolios "u1")) ∧
  after !! queryKey (useGetDefaultPortfolio "u1") =
    invalidated <$> (queryCache c !! queryKey (useGetDefaultPortfolio "u1")).
Proof.
  intros c.
  apply (transaction_mutation_invalidates
           (DeleteTransaction (Variables.mkDeleteTransaction "u1" "t1")) c "p1" "u1" "h1").
  reflexivity.
Defined.

(** X23.  A successful update of a holding invalidates neither the holdings
    list of any portfolio nor, unless the holding and the portfolio carry the
    same id, the detail query of the updated holding: the key it invalidates
    lists the ids in another order than the key [useGetHoldingById] caches
    under. *)
Theorem updateHolding_leaves_queries (userId portfolioId holdingId : string) (c : Client) :
  holdingId ≠ portfolioId →
  let after :=
    queryCache (runMutation
                  (UpdateHolding (Variables.mkUpdateHolding userId portfolioId holdingId))
                  (Return ()) c) in
  after !! queryKey (useGetHoldingById holdingId userId portfolioId) =
    queryCache c !! queryKey (useGetHoldingById holdingId userId portfolioId) ∧
  (∀ p u, after !! queryKey (useGetPortfolioHoldings p u) =
          queryCache c !! queryKey (useGetPortfolioHoldings p u)).
Proof.
  intros Hne after. subst after.
  cbn [runMutation mutate onSuccess useUpdateHolding showToast queryCache
       Variables.uh_portfolioId Variables.uh_userId Variables.uh_holdingId].
  split; [|intros p u]; rewrite lookup_invalidateQueries;
    cbn [queryKey useGetHoldingById useGetPortfolioHoldings];
    (rewrite bool_decide_eq_false_2 by (intros [tail Htail]; cbn in Htail; simplify_eq));
    by destruct (queryCache c !! _).
Qed.

Lemma updateHolding_leaves_queries_witness :
  let c := mkClient {[ holdingKeys.detail "h1" "u1" "p1" := Query.mk "holding h1" false ]} [] in
  let after :=
    queryCache (runMutation (UpdateHolding (Variables.mkUpdateHolding "u1" "p1" "h1"))
                  (Return ()) c) in
  after !! queryKey (useGetHoldingById "h1" "u1" "p1") =
    queryCache c !! queryKey (useGetHoldingById "h1" "u1" "p1") ∧
  (∀ p u, after !! queryKey (useGetPortfolioHoldings p u) =
          queryCache c !! queryKey (useGetPortfolioHoldings p u)).
Proof.
  intros c. apply (updateHolding_leaves_queries "u1" "p1" "h1" c). discriminate.
Defined.

(** X24.  A successful creation or deletion of a holding invalidates the
    holdings list of its portfolio and user, and nothing else the hooks
    cache: not the holdings list of another portfolio or user, no holding
    detail, no portfolio query. *)
Theorem holding_list_mutation_invalidates (m : Mutation) (portfolioId userId : string)
    (c : Client) :
  (m = CreateHolding (Variables.mkCreateHolding portfolioId userId) ∨
   ∃ holdingId, m = DeleteHolding (Variables.mkDeleteHolding holdingId portfolioId userId)) →
  let after := queryCache (runMutation m (Return ()) c) in
  after !! queryKey (useGetPortfolioHoldings portfolioId userId) =
    invalidated <$> (queryCache c !! queryKey (useGetPortfolioHoldings portfolioId userId)) ∧
  (∀ p u, (p, u) ≠ (portfolioId, userId) →
          after !! queryKey (useGetPortfolioHoldings p u) =
          queryCache c !! queryKey (useGetPortfolioHoldings p u)) ∧
  (∀ h u p, after !! queryKey (useGetHoldingById h u p) =
            queryCache c !! queryKey (useGetHoldingById h u p)) ∧
  (∀ u, after !! queryKey (useGetUserPortfolios u) =
        queryCache c !! queryKey (useGetUserPortfolios u)) ∧
  (∀ u, after !! queryKey (useGetDefaultPortfolio u) =
        queryCache c !! queryKey (useGetDefaultPortfolio u)).
Proof.
  intros Hm after. subst after.
  assert (Hcache : queryCache (runMutation m (Return ()) c) =
                   queryCache (invalidateQueries (holdingKeys.list portfolioId userId) c)).
  { by destruct Hm as [->|[holdingId ->]]. }
  rewrite Hcache. clear Hcache Hm.
  split; [|split; [|split; [|split]]]; intros; rewrite lookup_invalidateQueries;
    cbn [queryKey useGetHoldingById useGetPortfolioHoldings useGetUserPortfolios
         useGetDefaultPortfolio].
  - rewrite bool_decide_eq_true_2 by done. by destruct (queryCache c !! _).
  - rewrite bool_decide_eq_false_2; [by destruct (queryCache c !! _)|].
    intros [tail Htail]; cbn in Htail; simplify_eq.
  - rewrite bool_decide_eq_false_2; [by destruct (queryCache c !! _)|].
    intros [tail Htail]; cbn in Htail; simplify_eq.
  - rewrite bool_decide_eq_false_2; [by destruct (queryCache c !! _)|].
    intros [tail Htail]; cbn in Htail; simplify_eq.
  - rewrite bool_decide_eq_false_2; [by destruct (queryCache c !! _)|].
    intros [tail Htail]; cbn in Htail; simplify_eq.
Qed.

Lemma holding_list_mutation_invalidates_witness :
  let c := mkClient {[ holdingKeys.list "p1" "u1" := Query.mk "holdings of p1" false;
                       holdingKeys.list "p2" "u1" := Query.mk "holdings of p2" false ]} [] in
  let after :=
    queryCache (runMutation (CreateHolding (Variables.mkCreateHolding "p1" "u1"))
                  (Return ()) c) in
  after !! queryKey (useGetPortfolioHoldings "p1" "u1") =
    invalidated <$> (queryCache c !! queryKey (useGetPortfolioHoldings "p1" "u1")) ∧
  (∀ p u, (p, u) ≠ ("p1", "u1") →
          after !! queryKey (useGetPortfolioHoldings p u) =
          queryCache c !! queryKey (useGetPortfolioHoldings p u)) ∧
  (∀ h u p, after !! queryKey (useGetHoldingById h u p) =
            queryCache c !! queryKey (useGetHoldingById h u p)) ∧
  (∀ u, after !! queryKey (useGetUserPortfolios u) =
        queryCache c !! queryKey (useGetUserPortfolios u)) ∧
  (∀ u, after !! queryKey (useGetDefaultPortfolio u) =
        queryCache c !! queryKey (useGetDefaultPortfolio u)).
Proof.
  intros c.
  apply (holding_list_mutation_invalidates
           (CreateHolding (Variables.mkCreateHolding "p1" "u1")) "p1" "u1" c).
  by left.
Defined.

(** X26.  Every successful mutation shows one plain toast.  A failed
    mutation of a transaction shows one destructive toast carrying the
    message of the server when it sent a non-empty one and "Something went
    wrong" otherwise; a failed mutation of a holding shows nothing and leaves
    the client exactly as it was. *)
Theorem mutation_toasts (m : Mutation) (settled : Completion unit) (c : Client) :
  match settled with
  | Return _ =>
      ∃ title description,
        shown (runMutation m settled c) = shown c ++ [Toast.mk plain title description]
  | Throw error =>
      if isTransactionMutation m then
        ∃ title,
          runMutation m settled c =
            mkClient (queryCache c)
              (shown c ++
                 [Toast.mk destructive title
                    (or_else (Error.responseMessage error) "Something went wrong")])
      else runMutation m settled c = c
  end.
Proof.
  destruct m, settled; cbn; try (by eexists; eexists); try (by eexists).
  all: by destruct c.
Qed.

(** ** AddTransactionDialog *)

(** Runs [onSubmit] as far as the answers of the gateway are known. *)
Ltac run_dialog :=
  lazy -[getOrCreateSecurity findHoldingBySecurityId createHolding createTransaction
         TransactionFormValues.symbol AuthUser.id mutate useCreateTransaction
         transactionData app].

(** X27.  [onSubmit] of the dialog never throws, whatever the gateway
    answers; without a user it sends no request and touches neither the
    dialog nor the query client. *)
Theorem AddTransactionDialog_onSubmit_caught (gateway : Gateway)
    (user : option AuthUser.t) (portfolioId : string)
    (defaultValues values : TransactionFormValues.t) (s : AddTransactionDialog) :
  (AddTransactionDialog_onSubmit gateway user portfolioId defaultValues values s).1 =
    Return () ∧
  AddTransactionDialog_onSubmit gateway None portfolioId defaultValues values s =
    (Return (),
     mkDialog (open s) (selectedSecurity s) (form s) (client s) (requests s)
       (dialogConsole s ++ ["User not authenticated"])).
Proof.
  split; [|done]. destruct user as [u|]; [|done]. destruct s. run_dialog.
  destruct (getOrCreateSecurity gateway _) as [security|?]; [|done].
  destruct (findHoldingBySecurityId gateway _ _ _) as [[holding|]|?]; [| |done].
  - by destruct (createTransaction gateway _ _ _).
  - destruct (createHolding gateway _ _ _) as [holding|?]; [|done].
    by destruct (createTransaction gateway _ _ _).
Qed.

(** X28.  When the security already has a holding in the portfolio, no
    holding is created: exactly three requests are sent, the last one the
    transaction on the id of the holding found ([holdingId] when non-empty,
    else [id]).  The callbacks of [useCreateTransaction] run on the query
    client, and the dialog closes, resets its form and clears the selection
    exactly when the transaction is accepted. *)
Theorem AddTransactionDialog_existing_holding (gateway : Gateway)
    (user : AuthUser.t) (portfolioId security : string) (holding : HoldingRef.t)
    (defaultValues values : TransactionFormValues.t) (s : AddTransactionDialog) :
  getOrCreateSecurity gateway (TransactionFormValues.symbol values) = Return security →
  findHoldingBySecurityId gateway (AuthUser.id user) portfolioId security =
    Return (Some holding) →
  let settled :=
    createTransaction gateway (AuthUser.id user) portfolioId
      (transactionData holding values) in
  let s' :=
    (AddTransactionDialog_onSubmit gateway (Some user) portfolioId
       defaultValues values s).2 in
  requests s' = requests s ++
    [GetOrCreateSecurity (TransactionFormValues.symbol values);
     FindHoldingBySecurityId (AuthUser.id user) portfolioId security;
     CreateTransactionRequest (AuthUser.id user) portfolioId
       (transactionData holding values)] ∧
  client s' =
    mutate useCreateTransaction
      (Variables.mkCreateTransaction (AuthUser.id user) portfolioId) settled (client s) ∧
  (open s', form s', selectedSecurity s') =
    match settled with
    | Return _ => (false, defaultValues, None)
    | Throw _ => (open s, form s, selectedSecurity s)
    end.
Proof.
  intros Hsecurity Hfind settled s'. subst settled s'. destruct s. run_dialog.
  rewrite Hsecurity, Hfind.
  destruct (createTransaction gateway _ _ _); by rewrite <- !app_assoc.
Qed.

Lemma AddTransactionDialog_existing_holding_witness :
  let gateway := sample_gateway (Some (HoldingRef.mk (Some "h1") None)) (Return ()) in
  let holding := HoldingRef.mk (Some "h1") None in
  let settled := createTransaction gateway "u1" "p1" (transactionData holding sample_values) in
  let s' :=
    (AddTransactionDialog_onSubmit gateway (Some alice) "p1"
       sample_defaultValues sample_values sample_dialog).2 in
  requests s' = requests sample_dialog ++
    [GetOrCreateSecurity "AAPL";
     FindHoldingBySecurityId "u1" "p1" "s1";
     CreateTransactionRequest "u1" "p1" (transactionData holding sample_values)] ∧
  client s' =
    mutate useCreateTransaction (Variables.mkCreateTransaction "u1" "p1") settled
      (client sample_dialog) ∧
  (open s', form s', selectedSecurity s') =
    match settled with
    | Return _ => (false, sample_defaultValues, None)
    | Throw _ => (open sample_dialog, form sample_dialog, selectedSecurity sample_dialog)
    end.
Proof.
  intros gateway holding.
  apply (AddTransactionDialog_existing_holding gateway alice "p1" "s1" holding
           sample_defaultValues sample_values sample_dialog); reflexivity.
Defined.

(** X29.  When the security has no holding in the portfolio, one is created
    with 0 shares and an average cost of 0, and the transaction is recorded
    on it.  When the transaction is then rejected the dialog stays open with
    its form and selection unchanged, and the request that created the
    holding has been sent all the same. *)
Theorem AddTransactionDialog_new_holding (gateway : Gateway)
    (user : AuthUser.t) (portfolioId security : string) (holding : HoldingRef.t)
    (defaultValues values : TransactionFormValues.t) (s : AddTransactionDialog) :
  getOrCreateSecurity gateway (TransactionFormValues.symbol values) = Return security →
  findHoldingBySecurityId gateway (AuthUser.id user) portfolioId security = Return None →
  createHolding gateway portfolioId (AuthUser.id user) security = Return holding →
  let settled :=
    createTransaction gateway (AuthUser.id user) portfolioId
      (transactionData holding values) in
  let s' :=
    (AddTransactionDialog_onSubmit gateway (Some user) portfolioId
       defaultValues values s).2 in
  requests s' = requests s ++
    [GetOrCreateSecurity (TransactionFormValues.symbol values);
     FindHoldingBySecurityId (AuthUser.id user) portfolioId security;
     CreateHoldingRequest portfolioId (AuthUser.id user) security 0 0;
     CreateTransactionRequest (AuthUser.id user) portfolioId
       (transactionData holding values)] ∧
  (open s', form s', selectedSecurity s') =
    match settled with
    | Return _ => (false, defaultValues, None)
    | Throw _ => (open s, form s, selectedSecurity s)
    end.
Proof.
  intros Hsecurity Hfind Hcreate settled s'. subst settled s'. destruct s. run_dialog.
  rewrite Hsecurity, Hfind, Hcreate.
  destruct (createTransaction gateway _ _ _); by rewrite <- !app_assoc.
Qed.

Lemma AddTransactionDialog_new_holding_witness :
  let gateway := sample_gateway None (Throw (Error.mk None (Some "Insufficient shares"))) in
  let holding := HoldingRef.mk None (Some "h9") in
  let settled := createTransaction gateway "u1" "p1" (transactionData holding sample_values) in
  let s' :=
    (AddTransactionDialog_onSubmit gateway (Some alice) "p1"
       sample_defaultValues sample_values sample_dialog).2 in
  requests s' = requests sample_dialog ++
    [GetOrCreateSecurity "AAPL";
     FindHoldingBySecurityId "u1" "p1" "s1";
     CreateHoldingRequest "p1" "u1" "s1" 0 0;
     CreateTransactionRequest "u1" "p1" (transactionData holding sample_values)] ∧
  (open s', form s', selectedSecurity s') =
    match settled with
    | Return _ => (false, sample_defaultValues, None)
    | Throw _ => (open sample_dialog, form sample_dialog, selectedSecurity sample_dialog)
    end.
Proof.
  intros gateway holding.
  apply (AddTransactionDialog_new_holding gateway alice "p1" "s1" holding
           sample_defaultValues sample_values sample_dialog); reflexivity.
Defined.

(** X30.  The requests are sent one after the other and the first failure
    ends the submission: when the security cannot be resolved nothing else is
    requested, and when the search for the holding fails neither a holding
    nor a transaction is created.  In both cases the dialog, its form, its
    selection and the query client are as before. *)
Theorem AddTransactionDialog_early_failure (gateway : Gateway)
    (user : AuthUser.t) (portfolioId : string) (error : Error.t)
    (defaultValues values : TransactionFormValues.t) (s : AddTransactionDialog) :
  let s' :=
    (AddTransactionDialog_onSubmit gateway (Some user) portfolioId
       defaultValues values s).2 in
  (getOrCreateSecurity gateway (TransactionFormValues.symbol values) = Throw error →
   requests s' = requests s ++ [GetOrCreateSecurity (TransactionFormValues.symbol values)] ∧
   (open s', form s', selectedSecurity s', client s') =
     (open s, form s, selectedSecurity s, client s)) ∧
  (∀ security,
     getOrCreateSecurity gateway (TransactionFormValues.symbol values) = Return security →
     findHoldingBySecurityId gateway (AuthUser.id user) portfolioId security = Throw error →
     requests s' = requests s ++
       [GetOrCreateSecurity (TransactionFormValues.symbol values);
        FindHoldingBySecurityId (AuthUser.id user) portfolioId security] ∧
     (open s', form s', selectedSecurity s', client s') =
       (open s, form s, selectedSecurity s, client s)).
Proof.
  intros s'. subst s'. destruct s. split.
  - intros Hsecurity. run_dialog. by rewrite Hsecurity.
  - intros security Hsecurity Hfind. run_dialog.
    rewrite Hsecurity, Hfind. by rewrite <- !app_assoc.
Qed.
